(** * Realtime collaborative whiteboard: event log, undo/redo and relay

    A shallow embedding of the event core of [src/App.tsx] (the final,
    undo/redo revision of the component) and of the relay of [server.js],
    together with the properties of the event log that the design document
    states about them.

    Modelling conventions.
    - JavaScript numbers that the program only ever produces as integers
      ([seq], pointer coordinates) are integers [Z].
    - [Set<string>] is [gset string]; [Record<string, CursorPresence>] is
      [gmap string CursorPresence]; the React state array [events] is a
      [list] in arrival order.
    - [uuid()] is an oracle: every handler that calls it takes the drawn
      identifiers as arguments.
    - [socketRef.current?.send(JSON.stringify(m))] appends [m] to an
      [outbox]; [JSON.parse(msg.data)] is the inverse, so a received frame
      is a [WireMessage]. *)

From stdpp Require Import gmap strings list sorting.

#[local] Set Warnings "-clear-no-such-hyp".

Open Scope Z_scope.

Module Whiteboard.

(** ** Types *)

(** [WhiteboardEvent = DrawEventInput | UndoEvent | RedoEvent], a union
    discriminated by its [type] tag. *)
Inductive WhiteboardEvent : Type :=
  | stroke_start (strokeId : string) (x y : Z)
  | stroke_move (strokeId : string) (x y : Z)
  | stroke_end (strokeId : string)
  | undo (targetStrokeId : string)
  | redo (targetUndoEventId : string).

(** [StoredEvent = WhiteboardEvent & { id; seq; userId }]. *)
Record StoredEvent : Type := mkStored {
  data : WhiteboardEvent;
  id : string;
  seq : Z;
  userId : string
}.

#[global] Instance WhiteboardEvent_eq_dec : EqDecision WhiteboardEvent.
Proof. solve_decision. Defined.

#[global] Instance StoredEvent_eq_dec : EqDecision StoredEvent.
Proof. solve_decision. Defined.

(** [CursorPresence]; its fields live in their own name space because
    [userId] is a field of [StoredEvent] as well. *)
Module Cursor.
Record CursorPresence : Type := mk {
  userId : string;
  x : Z;
  y : Z;
  color : string
}.
End Cursor.
Abbreviation CursorPresence := Cursor.CursorPresence.

#[global] Instance CursorPresence_eq_dec : EqDecision CursorPresence.
Proof. solve_decision. Defined.

(** One relay frame: either the presence shape ([type: "cursor"]) or a
    stored event. *)
Inductive WireMessage : Type :=
  | WCursor (c : CursorPresence)
  | WEvent (e : StoredEvent).

(** The test ["strokeId" in e], with the field when it is there. *)
Definition strokeId (e : StoredEvent) : option string :=
  match data e with
  | stroke_start s _ _ | stroke_move s _ _ | stroke_end s => Some s
  | undo _ | redo _ => None
  end.

(** ** Canvas: [redraw] *)

(** The calls [redraw] makes on the 2D context, in order. *)
Inductive CanvasOp : Type :=
  | clearRect
  | beginPath
  | moveTo (x y : Z)
  | lineTo (x y : Z)
  | stroke
  | closePath.

(** The comparator [(a, b) => a.seq - b.seq]. *)
Definition compare_seq (a b : StoredEvent) : Z := seq a - seq b.

(** [Array.prototype.sort] is a stable sort: an element moves behind
    another one only where the comparator is positive.  Stable insertion
    computes that unique result. *)
Fixpoint insert_event (a : StoredEvent) (l : list StoredEvent) : list StoredEvent :=
  match l with
  | [] => [a]
  | b :: l' => if decide (0 < compare_seq a b) then b :: insert_event a l'
               else a :: b :: l'
  end.

Fixpoint sort_by_seq (l : list StoredEvent) : list StoredEvent :=
  match l with
  | [] => []
  | a :: l' => insert_event a (sort_by_seq l')
  end.

(** The order the comparator sorts into. *)
Definition le_seq (a b : StoredEvent) : Prop := seq a ≤ seq b.

(** [const ordered = [...events].sort((a, b) => a.seq - b.seq)] *)
Definition resolve_order (events : list StoredEvent) : list StoredEvent :=
  sort_by_seq events.

(** First loop: [if (e.type === "redo") redoneUndoIds.add(e.targetUndoEventId)]. *)
Definition add_redone (acc : gset string) (e : StoredEvent) : gset string :=
  match data e with
  | redo t => {[t]} ∪ acc
  | _ => acc
  end.

Definition redoneUndoIds (ordered : list StoredEvent) : gset string :=
  foldl add_redone ∅ ordered.

(** Second loop:
    [if (e.type === "undo" && !redoneUndoIds.has(e.id)) undoneStrokes.add(e.targetStrokeId)]. *)
Definition add_undone (redone : gset string) (acc : gset string) (e : StoredEvent)
  : gset string :=
  match data e with
  | undo t => if decide (id e ∈ redone) then acc else {[t]} ∪ acc
  | _ => acc
  end.

Definition undoneStrokes (ordered : list StoredEvent) : gset string :=
  foldl (add_undone (redoneUndoIds ordered)) ∅ ordered.

(** The guard of the third loop: ["strokeId" in e && undoneStrokes.has(e.strokeId)]. *)
Definition skipped (undone : gset string) (e : StoredEvent) : bool :=
  match strokeId e with
  | Some s => bool_decide (s ∈ undone)
  | None => false
  end.

(** The [switch (e.type)] of the third loop; undo and redo events match no case. *)
Definition draw (e : StoredEvent) : list CanvasOp :=
  match data e with
  | stroke_start _ x y => [beginPath; moveTo x y]
  | stroke_move _ x y => [lineTo x y; stroke]
  | stroke_end _ => [closePath]
  | undo _ | redo _ => []
  end.

Fixpoint paint (undone : gset string) (ordered : list StoredEvent) : list CanvasOp :=
  match ordered with
  | [] => []
  | e :: rest => if skipped undone e then paint undone rest
                 else draw e ++ paint undone rest
  end.

Definition redraw (events : list StoredEvent) : list CanvasOp :=
  let ordered := resolve_order events in
  clearRect :: paint (undoneStrokes ordered) ordered.

(** The events the third loop does not skip, in render order. *)
Definition visible_events (events : list StoredEvent) : list StoredEvent :=
  let ordered := resolve_order events in
  filter (λ e, skipped (undoneStrokes ordered) e = false) ordered.

(** ** Application state *)

Record AppState : Type := mkApp {
  events : list StoredEvent;
  seenEventIds : gset string;
  seqRef : Z;
  userIdRef : string;
  userColorRef : string;
  cursors : gmap string CursorPresence;
  isDrawing : bool;
  currentStrokeId : option string;
  outbox : list WireMessage
}.

(** The state on mount; the two identity refs are drawn at random. *)
Definition initial (user color : string) : AppState :=
  {| events := []; seenEventIds := ∅; seqRef := 0;
     userIdRef := user; userColorRef := color;
     cursors := ∅; isDrawing := false; currentStrokeId := None;
     outbox := [] |}.

Definition set_isDrawing (b : bool) (s : AppState) : AppState :=
  {| events := events s; seenEventIds := seenEventIds s; seqRef := seqRef s;
     userIdRef := userIdRef s; userColorRef := userColorRef s;
     cursors := cursors s; isDrawing := b;
     currentStrokeId := currentStrokeId s; outbox := outbox s |}.

Definition set_currentStrokeId (c : option string) (s : AppState) : AppState :=
  {| events := events s; seenEventIds := seenEventIds s; seqRef := seqRef s;
     userIdRef := userIdRef s; userColorRef := userColorRef s;
     cursors := cursors s; isDrawing := isDrawing s;
     currentStrokeId := c; outbox := outbox s |}.

Definition set_cursors (c : gmap string CursorPresence) (s : AppState) : AppState :=
  {| events := events s; seenEventIds := seenEventIds s; seqRef := seqRef s;
     userIdRef := userIdRef s; userColorRef := userColorRef s;
     cursors := c; isDrawing := isDrawing s;
     currentStrokeId := currentStrokeId s; outbox := outbox s |}.

(** [socketRef.current?.send(JSON.stringify(m))] *)
Definition send (m : WireMessage) (s : AppState) : AppState :=
  {| events := events s; seenEventIds := seenEventIds s; seqRef := seqRef s;
     userIdRef := userIdRef s; userColorRef := userColorRef s;
     cursors := cursors s; isDrawing := isDrawing s;
     currentStrokeId := currentStrokeId s; outbox := outbox s ++ [m] |}.

(** ** Event core *)

(** [ingestEvent]: a seen id returns at once; otherwise the id is added to
    the set and the event appended to the log. *)
Definition ingestEvent (event : StoredEvent) (s : AppState) : AppState :=
  if decide (id event ∈ seenEventIds s) then s
  else
    {| events := events s ++ [event];
       seenEventIds := {[id event]} ∪ seenEventIds s;
       seqRef := seqRef s;
       userIdRef := userIdRef s; userColorRef := userColorRef s;
       cursors := cursors s; isDrawing := isDrawing s;
       currentStrokeId := currentStrokeId s; outbox := outbox s |}.

(** [createEvent]: [uid] is the value of [uuid()]; [seqRef.current++] yields
    the old counter and leaves it incremented. *)
Definition createEvent (uid : string) (d : WhiteboardEvent) (s : AppState)
  : StoredEvent * AppState :=
  ({| data := d; id := uid; seq := seqRef s; userId := userIdRef s |},
   {| events := events s; seenEventIds := seenEventIds s; seqRef := seqRef s + 1;
      userIdRef := userIdRef s; userColorRef := userColorRef s;
      cursors := cursors s; isDrawing := isDrawing s;
      currentStrokeId := currentStrokeId s; outbox := outbox s |}).

Definition broadcastEvent (event : StoredEvent) (s : AppState) : AppState :=
  send (WEvent event) (ingestEvent event s).

(** [broadcastEvent(createEvent(d))] *)
Definition emit (uid : string) (d : WhiteboardEvent) (s : AppState) : AppState :=
  let '(event, s') := createEvent uid d s in broadcastEvent event s'.

(** ** Socket *)

(** [setCursors((prev) => ({ ...prev, [data.userId]: data }))] *)
Definition updateCursor (d : CursorPresence) (prev : gmap string CursorPresence)
  : gmap string CursorPresence :=
  <[Cursor.userId d := d]> prev.

(** [socket.onmessage]: a presence frame is dropped when it is the user's
    own and stored otherwise; every other frame is ingested. *)
Definition onmessage (m : WireMessage) (s : AppState) : AppState :=
  match m with
  | WCursor d =>
      if decide (Cursor.userId d = userIdRef s) then s
      else set_cursors (updateCursor d (cursors s)) s
  | WEvent e => ingestEvent e s
  end.

(** ** Drawing *)

(** Truthiness of [currentStrokeId.current]: [null] and the empty string
    are falsy. *)
Definition truthy (c : option string) : option string :=
  match c with
  | Some sid => if decide (sid = EmptyString) then None else Some sid
  | None => None
  end.

Definition handleMouseDown (strokeUid uid : string) (x y : Z) (s : AppState)
  : AppState :=
  let s1 := set_currentStrokeId (Some strokeUid) s in
  let s2 := emit uid (stroke_start strokeUid x y) s1 in
  set_isDrawing true s2.

Definition handleMouseMove (uid : string) (x y : Z) (s : AppState) : AppState :=
  let s1 := send (WCursor (Cursor.mk (userIdRef s) x y (userColorRef s))) s in
  if isDrawing s1 then
    match truthy (currentStrokeId s1) with
    | Some sid => emit uid (stroke_move sid x y) s1
    | None => s1
    end
  else s1.

Definition stopDrawing (uid : string) (s : AppState) : AppState :=
  if isDrawing s then
    match truthy (currentStrokeId s) with
    | Some sid =>
        set_isDrawing false
          (set_currentStrokeId None (emit uid (stroke_end sid) s))
    | None => s
    end
  else s.

(** ** Undo / redo *)

(** The loop [for (let i = events.length - 1; i >= 0; i--)] with a [break]
    at the first hit: [scan_back f events n] visits the indices [n - 1]
    down to [0] and stops at the first event [f] accepts.  An index past
    the end does not occur when [n] is the length of the array. *)
Fixpoint scan_back {B : Type} (f : StoredEvent → option B)
    (events : list StoredEvent) (n : nat) : option B :=
  match n with
  | O => None
  | S i =>
      match events !! i with
      | Some e =>
          match f e with
          | Some b => Some b
          | None => scan_back f events i
          end
      | None => scan_back f events i
      end
  end.

(** [e.type === "stroke_end" && e.userId === userIdRef.current], with the
    [e.strokeId] the body then reads. *)
Definition own_stroke_end (user : string) (e : StoredEvent) : option string :=
  match data e with
  | stroke_end sid => if decide (userId e = user) then Some sid else None
  | _ => None
  end.

(** [e.type === "undo" && e.userId === userIdRef.current], with the [e.id]
    the body then reads. *)
Definition own_undo (user : string) (e : StoredEvent) : option string :=
  match data e with
  | undo _ => if decide (userId e = user) then Some (id e) else None
  | _ => None
  end.

(** The two loop conditions as propositions. *)
Definition is_own_stroke_end (user : string) (e : StoredEvent) : Prop :=
  ∃ sid, data e = stroke_end sid ∧ userId e = user.

Definition is_own_undo (user : string) (e : StoredEvent) : Prop :=
  ∃ sid, data e = undo sid ∧ userId e = user.

Definition undo_target (s : AppState) : option string :=
  scan_back (own_stroke_end (userIdRef s)) (events s) (length (events s)).

Definition redo_target (s : AppState) : option string :=
  scan_back (own_undo (userIdRef s)) (events s) (length (events s)).

Definition handleUndo (uid : string) (s : AppState) : AppState :=
  match undo_target s with
  | Some sid => emit uid (undo sid) s
  | None => s
  end.

Definition handleRedo (uid : string) (s : AppState) : AppState :=
  match redo_target s with
  | Some uidTarget => emit uid (redo uidTarget) s
  | None => s
  end.

(** ** Runs *)

(** What can happen to a mounted component: a frame arrives, or the user
    acts.  Identifiers drawn by [uuid()] come with the action. *)
Inductive Action : Type :=
  | Receive (m : WireMessage)
  | MouseDown (strokeUid uid : string) (x y : Z)
  | MouseMove (uid : string) (x y : Z)
  | MouseUp (uid : string)
  | ClickUndo (uid : string)
  | ClickRedo (uid : string).

Definition step (a : Action) (s : AppState) : AppState :=
  match a with
  | Receive m => onmessage m s
  | MouseDown strokeUid uid x y => handleMouseDown strokeUid uid x y s
  | MouseMove uid x y => handleMouseMove uid x y s
  | MouseUp uid => stopDrawing uid s
  | ClickUndo uid => handleUndo uid s
  | ClickRedo uid => handleRedo uid s
  end.

Definition run (acts : list Action) (s : AppState) : AppState :=
  foldl (λ st a, step a st) s acts.

(** A history of [ingestEvent] calls, oldest first. *)
Definition ingest_all (h : list StoredEvent) (s : AppState) : AppState :=
  foldl (λ st e, ingestEvent e st) s h.

(** The log a history of [ingestEvent] calls leaves behind on a freshly
    mounted component. *)
Definition log_of_history (user color : string) (h : list StoredEvent)
  : list StoredEvent :=
  events (ingest_all h (initial user color)).

(** The events a handler put on the wire. *)
Definition sent_events (s : AppState) : list StoredEvent :=
  omap (λ m, match m with WEvent e => Some e | WCursor _ => None end) (outbox s).

(** ** The resolver as the design document words it *)

(** [{ e.targetUndoEventId : e is a Redo event in the log }] *)
Definition spec_redoneUndoIds (log : list StoredEvent) : gset string :=
  list_to_set
    (omap (λ e, match data e with redo t => Some t | _ => None end) log).

(** [{ e.targetStrokeId : e is an Undo event in the log AND e.id ∉ redoneUndoIds }] *)
Definition spec_undoneStrokeIds (log : list StoredEvent) : gset string :=
  list_to_set
    (omap (λ e, match data e with
                | undo t => if decide (id e ∈ spec_redoneUndoIds log) then None
                            else Some t
                | _ => None
                end) log).

(** A redo event for the undo event with id [i] is in the log. *)
Definition redone_in (log : list StoredEvent) (i : string) : Prop :=
  ∃ r, r ∈ log ∧ data r = redo i.

(** A run of presence updates, oldest first. *)
Definition presence_updates (ds : list CursorPresence)
    (c : gmap string CursorPresence) : gmap string CursorPresence :=
  foldl (λ acc d, updateCursor d acc) c ds.

(** The coherence of the log with the seen-id set. *)
Definition coherent (s : AppState) : Prop :=
  NoDup (id <$> events s) ∧ seenEventIds s = list_to_set (id <$> events s).

(** ** Views of the log and of a gesture *)

(** The events that put something on the canvas: the stroke-bearing
    events whose stroke is not in [undone]. *)
Definition shown (undone : gset string) (e : StoredEvent) : bool :=
  match strokeId e with
  | Some sid => bool_decide (sid ∉ undone)
  | None => false
  end.



(** The two shapes of a frame, as [socket.onmessage] tells them apart. *)
Definition frame_event (m : WireMessage) : option StoredEvent :=
  match m with
  | WEvent e => Some e
  | WCursor _ => None
  end.

Definition frame_cursor (m : WireMessage) : option CursorPresence :=
  match m with
  | WCursor c => Some c
  | WEvent _ => None
  end.

(** Frames arriving one after the other. *)
Definition receive_all (ms : list WireMessage) (s : AppState) : AppState :=
  foldl (λ st m, onmessage m st) s ms.

End Whiteboard.

(** * Text of a message

    [msg.toString()] on the [Buffer] the socket library hands to the
    handler decodes its bytes as UTF-8, and [client.send] of the resulting
    string puts the UTF-8 encoding of that string on the wire.  The decoder
    is the one of the Encoding Standard: a byte sequence that is not
    well-formed yields U+FFFD, one for every maximal ill-formed part.
    Bytes and code points are integers; the bit fields of the encoding are
    written with division and remainder. *)

Module Utf8.




(** The decoder's state: the code point under construction, the number of
    continuation bytes still to come, and the range the next one must lie
    in. *)
Record State : Type := mkState {
  code_point : Z;
  bytes_needed : nat;
  lower : Z;
  upper : Z
}.

Definition start : State := mkState 0 0 0x80 0xBF.

(** A byte read while no sequence is open. *)
Definition lead (b : Z) : list Z * State :=
  if decide (0 ≤ b ≤ 0x7F) then ([b], start)
  else if decide (0xC2 ≤ b ≤ 0xDF) then ([], mkState (b - 0xC0) 1 0x80 0xBF)
  else if decide (0xE0 ≤ b ≤ 0xEF) then
    ([], mkState (b - 0xE0) 2
           (if decide (b = 0xE0) then 0xA0 else 0x80)
           (if decide (b = 0xED) then 0x9F else 0xBF))
  else if decide (0xF0 ≤ b ≤ 0xF4) then
    ([], mkState (b - 0xF0) 3
           (if decide (b = 0xF0) then 0x90 else 0x80)
           (if decide (b = 0xF4) then 0x8F else 0xBF))
  else ([0xFFFD], start).

(** One byte: the code points it completes and the next state.  A byte
    that cannot continue the open sequence ends it with U+FFFD and is read
    again as a first byte. *)
Definition step (st : State) (b : Z) : list Z * State :=
  match bytes_needed st with
  | O => lead b
  | S n =>
      if decide (lower st ≤ b ≤ upper st) then
        let cp := code_point st * 64 + (b - 0x80) in
        match n with
        | O => ([cp], start)
        | S _ => ([], mkState cp n 0x80 0xBF)
        end
      else
        let '(out, st') := lead b in (0xFFFD :: out, st')
  end.





End Utf8.

(** * The relay, [server.js] *)

Module Relay.

(** One entry of [wss.clients].  [cid] stands for the identity of the
    socket object ([client !== ws] compares identities), [readyState] is
    the numeric state of the socket (1 is open), and [delivered] lists the
    payloads [client.send] was called with, oldest first. *)
Record Client : Type := mkClient {
  cid : nat;
  readyState : nat;
  delivered : list string
}.

(** [client.send(payload)] *)
Definition client_send (payload : string) (client : Client) : Client :=
  {| cid := cid client; readyState := readyState client;
     delivered := delivered client ++ [payload] |}.

Section Broadcast.
Context {RawData : Type}.
(** [msg.toString()], from the socket library. *)
Variable toString : RawData → string.

(** The body of the [forEach] callback, for a message that arrived on [ws]. *)
Definition forward (ws : nat) (msg : RawData) (client : Client) : Client :=
  if decide (cid client ≠ ws ∧ readyState client = 1%nat)
  then client_send (toString msg) client
  else client.

(** [ws.on("message", (msg) => wss.clients.forEach(...))] *)
Definition on_message (ws : nat) (msg : RawData) (clients : list Client)
  : list Client :=
  forward ws msg <$> clients.

(** Messages handled one after the other, each with the connection it
    arrived on. *)
Definition relay_all (msgs : list (nat * RawData)) (clients : list Client)
  : list Client :=
  foldl (λ cs p, on_message p.1 p.2 cs) clients msgs.

End Broadcast.


End Relay.

(** * The duplicate-delivery revision of the component

    The second revision in [src/App.tsx] has no socket: every local event
    is ingested and then handed to [simulateRemoteChaos], which schedules
    one to three delayed copies of it, marked as remote, for ingestion. *)

Module ChaosRevision.

Inductive DrawEventInput : Type :=
  | stroke_start (x y : Z)
  | stroke_move (x y : Z)
  | stroke_end.

Inductive Source : Type := local | remote.

(** [DrawEvent = DrawEventInput & { id; seq; source }] *)
Record DrawEvent : Type := mkDraw {
  data : DrawEventInput;
  id : string;
  seq : Z;
  source : Source
}.

(** [timers] holds the callbacks [setTimeout] has scheduled and that have
    not run yet, each with the event it closes over.  The delays are
    random, so any of them may run next. *)
Record AppState : Type := mkApp {
  events : list DrawEvent;
  seenEventIds : gset string;
  isDrawing : bool;
  seqRef : Z;
  timers : list DrawEvent
}.

Definition initial : AppState :=
  {| events := []; seenEventIds := ∅; isDrawing := false; seqRef := 0;
     timers := [] |}.

Definition set_isDrawing (b : bool) (s : AppState) : AppState :=
  {| events := events s; seenEventIds := seenEventIds s; isDrawing := b;
     seqRef := seqRef s; timers := timers s |}.

Definition ingestEvent (event : DrawEvent) (s : AppState) : AppState :=
  if decide (id event ∈ seenEventIds s) then s
  else
    {| events := events s ++ [event];
       seenEventIds := {[id event]} ∪ seenEventIds s;
       isDrawing := isDrawing s; seqRef := seqRef s; timers := timers s |}.

Definition createLocalEvent (uid : string) (d : DrawEventInput) (s : AppState)
  : DrawEvent * AppState :=
  ({| data := d; id := uid; seq := seqRef s; source := local |},
   {| events := events s; seenEventIds := seenEventIds s;
      isDrawing := isDrawing s; seqRef := seqRef s + 1; timers := timers s |}).

(** [{ ...event, source: "remote" }] *)
Definition remoteCopy (event : DrawEvent) : DrawEvent :=
  {| data := data event; id := id event; seq := seq event; source := remote |}.

(** [roll] is [Math.floor(Math.random() * 3)], so [copies] is [roll + 1]. *)
Definition simulateRemoteChaos (roll : nat) (event : DrawEvent) (s : AppState)
  : AppState :=
  {| events := events s; seenEventIds := seenEventIds s;
     isDrawing := isDrawing s; seqRef := seqRef s;
     timers := timers s ++ replicate (roll + 1) event |}.

Definition addLocalEvent (uid : string) (roll : nat) (input : DrawEventInput)
    (s : AppState) : AppState :=
  let '(event, s1) := createLocalEvent uid input s in
  simulateRemoteChaos roll event (ingestEvent event s1).

(** The [i]-th pending callback runs:
    [ingestEvent({ ...event, source: "remote" })]. *)
Definition timeout (i : nat) (s : AppState) : AppState :=
  match timers s !! i with
  | Some event =>
      ingestEvent (remoteCopy event)
        {| events := events s; seenEventIds := seenEventIds s;
           isDrawing := isDrawing s; seqRef := seqRef s;
           timers := delete i (timers s) |}
  | None => s
  end.

Definition handleMouseDown (uid : string) (roll : nat) (x y : Z) (s : AppState)
  : AppState :=
  set_isDrawing true (addLocalEvent uid roll (stroke_start x y) s).

Definition handleMouseMove (uid : string) (roll : nat) (x y : Z) (s : AppState)
  : AppState :=
  if isDrawing s then addLocalEvent uid roll (stroke_move x y) s else s.

Definition stopDrawing (uid : string) (roll : nat) (s : AppState) : AppState :=
  if isDrawing s then set_isDrawing false (addLocalEvent uid roll stroke_end s)
  else s.

Inductive Action : Type :=
  | MouseDown (uid : string) (roll : nat) (x y : Z)
  | MouseMove (uid : string) (roll : nat) (x y : Z)
  | MouseUp (uid : string) (roll : nat)
  | Timeout (i : nat).

Definition step (a : Action) (s : AppState) : AppState :=
  match a with
  | MouseDown uid roll x y => handleMouseDown uid roll x y s
  | MouseMove uid roll x y => handleMouseMove uid roll x y s
  | MouseUp uid roll => stopDrawing uid roll s
  | Timeout i => timeout i s
  end.

Definition run (acts : list Action) (s : AppState) : AppState :=
  foldl (λ st a, step a st) s acts.

(** The actions of the user, without the callbacks. *)
Definition is_user (a : Action) : bool :=
  match a with
  | Timeout _ => false
  | _ => true
  end.

(** Everything of the state but the pending callbacks. *)
Definition core (s : AppState) : list DrawEvent * gset string * bool * Z :=
  (events s, seenEventIds s, isDrawing s, seqRef s).

(** Every logged event is a local one, and every pending callback holds an
    event whose id has been seen. *)
Definition settled (s : AppState) : Prop :=
  Forall (λ e, source e = local) (events s) ∧
  Forall (λ e, id e ∈ seenEventIds s) (timers s).

End ChaosRevision.

(** * Sample sessions *)

Module Scenario.
Import Whiteboard.

Definition alice : AppState := initial "alice" "red".

(** One stroke of two points, drawn by alice. *)
Definition draw_S : list Action :=
  [MouseDown "S" "e0" 0 0; MouseMove "e1" 10 10; MouseUp "e2"].

Definition ev_start : StoredEvent := mkStored (stroke_start "S" 0 0) "e0" 0 "alice".
Definition ev_move : StoredEvent := mkStored (stroke_move "S" 10 10) "e1" 1 "alice".
Definition ev_end : StoredEvent := mkStored (stroke_end "S") "e2" 2 "alice".
Definition ev_undo1 : StoredEvent := mkStored (undo "S") "e3" 3 "alice".
Definition ev_undo2 : StoredEvent := mkStored (undo "S") "e4" 4 "alice".
Definition ev_redo2 : StoredEvent := mkStored (redo "e4") "e5" 5 "alice".
Definition ev_redo2' : StoredEvent := mkStored (redo "e4") "e6" 6 "alice".

(** Alice draws, clicks undo twice and redo once. *)
Definition undo_undo_redo : list Action :=
  draw_S ++ [ClickUndo "e3"; ClickUndo "e4"; ClickRedo "e5"].

(** The log that session leaves. *)
Definition log_undone : list StoredEvent :=
  [ev_start; ev_move; ev_end; ev_undo1; ev_undo2; ev_redo2].


(** An event of bob that arrives under the id of alice's first event. *)
Definition forged : StoredEvent := mkStored (undo "S") "e0" 9 "bob".

(** Two events of two users that carry the same [seq]. *)
Definition tie_a : StoredEvent := mkStored (stroke_start "A" 0 0) "a0" 0 "alice".
Definition tie_b : StoredEvent := mkStored (stroke_start "B" 5 5) "b0" 0 "bob".

(** Bob has a stroke and an undo of it in alice's log. *)
Definition bob_end : StoredEvent := mkStored (stroke_end "B") "b1" 1 "bob".
Definition bob_undo : StoredEvent := mkStored (undo "B") "b2" 2 "bob".

(** Alice's log when only bob has drawn and undone. *)
Definition bob_only : list StoredEvent := [tie_b; bob_end; bob_undo].

Definition bob_cursor1 : CursorPresence := Cursor.mk "bob" 1 1 "blue".
Definition bob_cursor2 : CursorPresence := Cursor.mk "bob" 7 9 "blue".

(** Three connections on the relay: 1 and 2 open, 3 closing. *)
Definition three_clients : list Relay.Client :=
  [Relay.mkClient 1 1 []; Relay.mkClient 2 1 []; Relay.mkClient 3 2 []].

End Scenario.

(** * Properties of the whiteboard *)

Module WhiteboardProofs.
Import Whiteboard Scenario.

(** ** The render order *)

Lemma insert_event_perm a l : insert_event a l ≡ₚ a :: l.
Proof.
  induction l as [|b l IH]; simpl; [done|].
  case_decide; [|done].
  rewrite IH. apply Permutation_swap.
Qed.

Lemma sort_by_seq_perm l : sort_by_seq l ≡ₚ l.
Proof.
  induction l as [|a l IH]; simpl; [done|].
  by rewrite insert_event_perm, IH.
Qed.

Lemma insert_event_sorted a l :
  StronglySorted le_seq l → StronglySorted le_seq (insert_event a l).
Proof.
  induction 1 as [|b l Hl IH Hb]; simpl.
  - repeat constructor.
  - unfold compare_seq. case_decide as Hc.
    + constructor; [done|].
      rewrite insert_event_perm. constructor; [unfold le_seq; lia|done].
    + constructor; [by constructor|].
      constructor; [unfold le_seq; lia|].
      eapply Forall_impl; [exact Hb|]. unfold le_seq. intros; lia.
Qed.

Lemma sort_by_seq_sorted l : StronglySorted le_seq (sort_by_seq l).
Proof.
  induction l; simpl; [constructor|by apply insert_event_sorted].
Qed.

(** Stability: events of equal [seq] keep their arrival order. *)
Lemma insert_event_stable k a l :
  filter (λ e, seq e = k) (insert_event a l) = filter (λ e, seq e = k) (a :: l).
Proof.
  induction l as [|b l IH]; simpl; [done|].
  unfold compare_seq. case_decide as Hc; [|done].
  rewrite !filter_cons in *.
  repeat case_decide; simplify_eq; try lia; by rewrite IH.
Qed.

Lemma sort_by_seq_stable k l :
  filter (λ e, seq e = k) (sort_by_seq l) = filter (λ e, seq e = k) l.
Proof.
  induction l as [|a l IH]; simpl; [done|].
  rewrite insert_event_stable, !filter_cons. by rewrite IH.
Qed.

Lemma elem_of_resolve_order e log : e ∈ resolve_order log ↔ e ∈ log.
Proof. unfold resolve_order. by rewrite sort_by_seq_perm. Qed.

(** ** The three loops of [redraw] *)

Lemma elem_of_foldl_add_redone x acc l :
  x ∈ foldl add_redone acc l ↔ x ∈ acc ∨ ∃ e, e ∈ l ∧ data e = redo x.
Proof.
  revert acc. induction l as [|a l IH]; intros acc; simpl.
  - split; [auto|]. intros [?|(e & He & _)]; [done|by apply elem_of_nil in He].
  - rewrite IH. unfold add_redone. split.
    + intros [Hx|(e & He & Hd)].
      * destruct (data a) eqn:Ha; try (by left).
        apply elem_of_union in Hx as [Hx|Hx]; [|by left].
        apply elem_of_singleton in Hx as ->. right. exists a.
        split; [left|done].
      * right. exists e. split; [by right|done].
    + intros [Hx|(e & He & Hd)].
      * left. destruct (data a); try done. apply elem_of_union. by right.
      * apply elem_of_cons in He as [->|He].
        -- left. rewrite Hd. apply elem_of_union. left. by apply elem_of_singleton.
        -- right. eauto.
Qed.

Lemma elem_of_redoneUndoIds x l :
  x ∈ redoneUndoIds l ↔ ∃ e, e ∈ l ∧ data e = redo x.
Proof.
  unfold redoneUndoIds. rewrite elem_of_foldl_add_redone.
  split; [intros [Hx|?]; [by apply not_elem_of_empty in Hx|done]|by right].
Qed.

Lemma elem_of_spec_redoneUndoIds x log :
  x ∈ spec_redoneUndoIds log ↔ ∃ e, e ∈ log ∧ data e = redo x.
Proof.
  unfold spec_redoneUndoIds. rewrite elem_of_list_to_set, list_elem_of_omap.
  split; intros (e & He & Hd); exists e; (split; [done|]).
  - by destruct (data e); simplify_eq.
  - by rewrite Hd.
Qed.

Lemma redoneUndoIds_spec log :
  redoneUndoIds (resolve_order log) = spec_redoneUndoIds log.
Proof.
  apply set_eq. intros x.
  rewrite elem_of_redoneUndoIds, elem_of_spec_redoneUndoIds.
  by setoid_rewrite elem_of_resolve_order.
Qed.

Lemma elem_of_foldl_add_undone redone x acc l :
  x ∈ foldl (add_undone redone) acc l ↔
  x ∈ acc ∨ ∃ e, e ∈ l ∧ data e = undo x ∧ id e ∉ redone.
Proof.
  revert acc. induction l as [|a l IH]; intros acc; simpl.
  - split; [auto|]. intros [?|(e & He & _)]; [done|by apply elem_of_nil in He].
  - rewrite IH. unfold add_undone. split.
    + intros [Hx|(e & He & Hd)].
      * destruct (data a) eqn:Ha; try (by left).
        case_decide as Hr; [by left|].
        apply elem_of_union in Hx as [Hx|Hx]; [|by left].
        apply elem_of_singleton in Hx as ->. right. exists a.
        split; [left|done].
      * right. exists e. split; [by right|done].
    + intros [Hx|(e & He & Hd & Hr)].
      * left. destruct (data a); try done.
        case_decide; [done|]. apply elem_of_union. by right.
      * apply elem_of_cons in He as [->|He].
        -- left. rewrite Hd. rewrite decide_False by done.
           apply elem_of_union. left. by apply elem_of_singleton.
        -- right. eauto.
Qed.

Lemma elem_of_undoneStrokes x l :
  x ∈ undoneStrokes l ↔
  ∃ e, e ∈ l ∧ data e = undo x ∧ id e ∉ redoneUndoIds l.
Proof.
  unfold undoneStrokes. rewrite elem_of_foldl_add_undone.
  split; [intros [Hx|?]; [by apply not_elem_of_empty in Hx|done]|by right].
Qed.

Lemma elem_of_spec_undoneStrokeIds x log :
  x ∈ spec_undoneStrokeIds log ↔
  ∃ e, e ∈ log ∧ data e = undo x ∧ id e ∉ spec_redoneUndoIds log.
Proof.
  unfold spec_undoneStrokeIds. rewrite elem_of_list_to_set, list_elem_of_omap.
  split.
  - intros (e & He & Hd). exists e. split; [done|].
    destruct (data e); try done. case_decide; by simplify_eq.
  - intros (e & He & Hd & Hr). exists e. split; [done|].
    rewrite Hd. by rewrite decide_False.
Qed.

Lemma undoneStrokes_spec log :
  undoneStrokes (resolve_order log) = spec_undoneStrokeIds log.
Proof.
  apply set_eq. intros x.
  rewrite elem_of_undoneStrokes, elem_of_spec_undoneStrokeIds.
  rewrite redoneUndoIds_spec.
  by setoid_rewrite elem_of_resolve_order.
Qed.

Lemma paint_filter undone l :
  paint undone l = filter (λ e, skipped undone e = false) l ≫= draw.
Proof.
  induction l as [|e l IH]; simpl; [done|].
  rewrite filter_cons. destruct (skipped undone e) eqn:Hs.
  - by rewrite decide_False.
  - rewrite decide_True by done. simpl. by rewrite IH.
Qed.

Lemma elem_of_visible_events e log :
  e ∈ visible_events log ↔
  e ∈ log ∧ skipped (undoneStrokes (resolve_order log)) e = false.
Proof.
  unfold visible_events. rewrite list_elem_of_filter, elem_of_resolve_order.
  tauto.
Qed.

(** C1.  For every log, the two sets [redraw] builds over the sorted copy
    are the sets of the design document, [redraw] paints the events it does
    not skip, and a stroke-bearing event of the log is among them if and
    only if its [strokeId] is not the target of a live undo. *)
Theorem redraw_hides_exactly_undone (log : list StoredEvent) :
  redoneUndoIds (resolve_order log) = spec_redoneUndoIds log ∧
  undoneStrokes (resolve_order log) = spec_undoneStrokeIds log ∧
  redraw log = clearRect :: (visible_events log ≫= draw) ∧
  ∀ e sid, e ∈ log → strokeId e = Some sid →
    (e ∈ visible_events log ↔ sid ∉ spec_undoneStrokeIds log).
Proof.
  split; [apply redoneUndoIds_spec|].
  split; [apply undoneStrokes_spec|].
  split.
  - unfold redraw, visible_events. simpl. by rewrite paint_filter.
  - intros e sid He Hs. rewrite elem_of_visible_events.
    rewrite undoneStrokes_spec. unfold skipped. rewrite Hs.
    rewrite bool_decide_eq_false. tauto.
Qed.

(** ** Ingestion *)

Lemma ingestEvent_seen e s : id e ∈ seenEventIds s → ingestEvent e s = s.
Proof. intros H. unfold ingestEvent. by rewrite decide_True. Qed.

Lemma ingestEvent_fresh e s :
  id e ∉ seenEventIds s →
  events (ingestEvent e s) = events s ++ [e] ∧
  seenEventIds (ingestEvent e s) = {[id e]} ∪ seenEventIds s.
Proof. intros H. unfold ingestEvent. by rewrite decide_False. Qed.

Lemma ingestEvent_records e s : id e ∈ seenEventIds (ingestEvent e s).
Proof.
  unfold ingestEvent. case_decide; simpl; [done|].
  apply elem_of_union. left. by apply elem_of_singleton.
Qed.

Lemma ingestEvent_idem e s :
  ingestEvent e (ingestEvent e s) = ingestEvent e s.
Proof. apply ingestEvent_seen, ingestEvent_records. Qed.

Lemma coherent_initial user color : coherent (initial user color).
Proof. split; simpl; [constructor|done]. Qed.

Lemma coherent_ingestEvent e s : coherent s → coherent (ingestEvent e s).
Proof.
  intros [Hnd Hseen]. unfold ingestEvent. case_decide as Hin; [done|].
  split; simpl.
  - rewrite fmap_app. apply NoDup_app. split; [done|]. split.
    + intros i Hi Hi'. apply list_elem_of_singleton in Hi' as ->.
      apply Hin. rewrite Hseen. by apply elem_of_list_to_set.
    + apply NoDup_singleton.
  - rewrite fmap_app, list_to_set_app_L, Hseen. simpl.
    rewrite (right_id_L ∅ (∪)). apply (comm_L (∪)).
Qed.

Lemma coherent_ingest_all h s : coherent s → coherent (ingest_all h s).
Proof.
  revert s. induction h as [|e h IH]; intros s Hs; simpl; [done|].
  by apply IH, coherent_ingestEvent.
Qed.

Lemma coherent_NoDup s : coherent s → NoDup (events s).
Proof. intros [Hnd _]. by apply NoDup_fmap_1 in Hnd. Qed.

(** With distinct ids, an id that is in the log is the id of one entry. *)
Lemma one_entry_per_id (l : list StoredEvent) i :
  NoDup (id <$> l) → i ∈ id <$> l →
  length (filter (λ x, id x = i) l) = 1%nat.
Proof.
  induction l as [|a l IH]; simpl; intros Hnd Hi.
  - by apply elem_of_nil in Hi.
  - apply NoDup_cons in Hnd as [Ha Hnd]. rewrite filter_cons.
    case_decide as Hai.
    + subst i. simpl. f_equal.
      destruct (filter _ l) as [|x k] eqn:Hf; [done|]. exfalso.
      assert (x ∈ filter (λ x, id x = id a) l) as Hx by (rewrite Hf; left).
      apply list_elem_of_filter in Hx as [Hxa Hx].
      apply Ha. rewrite <- Hxa. by apply list_elem_of_fmap_2.
    + apply IH; [done|]. apply elem_of_cons in Hi as [?|?]; [congruence|done].
Qed.

Lemma filter_ext_elem {A} (P Q : A → Prop)
    `{!∀ x, Decision (P x), !∀ x, Decision (Q x)} (l : list A) :
  (∀ x, x ∈ l → P x ↔ Q x) → filter P l = filter Q l.
Proof.
  induction l as [|a l IH]; intros Hl; [done|].
  rewrite !filter_cons.
  rewrite IH by (intros x Hx; apply Hl; by right).
  destruct (decide (P a)) as [HP|HP], (decide (Q a)) as [HQ|HQ]; try done.
  - destruct HQ. apply Hl; [left|done].
  - destruct HP. apply Hl; [left|done].
Qed.

(** C2, amended.  Ingesting an event whose id has been seen changes
    nothing, so the log, the seen set and the visible events stay as they
    were; ingesting an event twice is ingesting it once; and on a coherent
    log the second state holds exactly one entry with that id, which is
    the one copy of the event itself whenever no different event with that
    id was in the log before. *)
Theorem ingest_idempotent (s : AppState) (e : StoredEvent) :
  (id e ∈ seenEventIds s →
     ingestEvent e s = s ∧
     visible_events (events (ingestEvent e s)) = visible_events (events s)) ∧
  (ingestEvent e (ingestEvent e s) = ingestEvent e s ∧
   visible_events (events (ingestEvent e (ingestEvent e s))) =
     visible_events (events (ingestEvent e s))) ∧
  (coherent s →
     length (filter (λ x, id x = id e)
               (events (ingestEvent e (ingestEvent e s)))) = 1%nat ∧
     ((∀ x, x ∈ events s → id x = id e → x = e) →
        length (filter (λ x, x = e)
                  (events (ingestEvent e (ingestEvent e s)))) = 1%nat)).
Proof.
  split; [|split].
  - intros H. by rewrite ingestEvent_seen.
  - by rewrite ingestEvent_idem.
  - intros Hs. rewrite ingestEvent_idem.
    pose proof (coherent_ingestEvent e s Hs) as [Hnd Hseen].
    assert (length (filter (λ x, id x = id e) (events (ingestEvent e s))) = 1%nat)
      as Hone.
    { apply one_entry_per_id; [done|].
      apply (elem_of_list_to_set (C := gset string)). rewrite <- Hseen.
      apply ingestEvent_records. }
    split; [done|]. intros Hid. rewrite <- Hone. f_equal.
    apply filter_ext_elem. intros x Hx. split; [by intros ->|].
    intros Hxe. revert Hx. unfold ingestEvent. case_decide; simpl.
    + intros Hx. by apply Hid.
    + rewrite elem_of_app, list_elem_of_singleton. intros [Hx|Hx]; [|done].
      by apply Hid.
Qed.

(** ** Every handler goes through [ingestEvent] *)

Lemma emit_log uid d s :
  events (emit uid d s) = events (ingestEvent (createEvent uid d s).1 s) ∧
  seenEventIds (emit uid d s) =
    seenEventIds (ingestEvent (createEvent uid d s).1 s).
Proof.
  unfold emit, createEvent, broadcastEvent, send, ingestEvent. simpl.
  by case_decide.
Qed.

Ltac unfold_handlers :=
  unfold emit, createEvent, broadcastEvent, send, ingestEvent,
    set_isDrawing, set_currentStrokeId, set_cursors; simpl.

Lemma step_log a s :
  (events (step a s) = events s ∧ seenEventIds (step a s) = seenEventIds s) ∨
  ∃ e, events (step a s) = events (ingestEvent e s) ∧
       seenEventIds (step a s) = seenEventIds (ingestEvent e s).
Proof.
  destruct a as [[d|e]|strokeUid uid x y|uid x y|uid|uid|uid]; simpl.
  - left. case_decide; done.
  - right. by exists e.
  - right. unfold handleMouseDown.
    exists (mkStored (stroke_start strokeUid x y) uid (seqRef s) (userIdRef s)).
    unfold_handlers. by case_decide.
  - unfold handleMouseMove. simpl. destruct (isDrawing s); [|by left].
    destruct (truthy (currentStrokeId s)) as [sid|]; [|by left].
    right. exists (mkStored (stroke_move sid x y) uid (seqRef s) (userIdRef s)).
    unfold_handlers. by case_decide.
  - unfold stopDrawing. destruct (isDrawing s); [|by left].
    destruct (truthy (currentStrokeId s)) as [sid|]; [|by left].
    right. exists (mkStored (stroke_end sid) uid (seqRef s) (userIdRef s)).
    unfold_handlers. by case_decide.
  - unfold handleUndo. destruct (undo_target s) as [sid|]; [|by left].
    right. eexists. apply emit_log.
  - unfold handleRedo. destruct (redo_target s) as [t|]; [|by left].
    right. eexists. apply emit_log.
Qed.

Lemma coherent_step a s : coherent s → coherent (step a s).
Proof.
  intros Hs. unfold coherent.
  destruct (step_log a s) as [[-> ->]|(e & -> & ->)]; [done|].
  by apply coherent_ingestEvent.
Qed.

Lemma coherent_run acts s : coherent s → coherent (run acts s).
Proof.
  revert s. induction acts as [|a acts IH]; intros s Hs; simpl; [done|].
  by apply IH, coherent_step.
Qed.

(** C10.  Every state a sequence of [ingestEvent] calls reaches from the
    empty state has pairwise distinct ids in its log and a seen set that
    is exactly the set of those ids; [ingestEvent] keeps that invariant;
    every handler leaves the log and the seen set alone or changes them as
    one [ingestEvent] call does, so the invariant holds in every state of
    a run of the component. *)
Theorem log_seen_coherence :
  (∀ h user color,
     NoDup (id <$> events (ingest_all h (initial user color))) ∧
     seenEventIds (ingest_all h (initial user color)) =
       list_to_set (id <$> events (ingest_all h (initial user color)))) ∧
  (∀ e s, coherent s → coherent (ingestEvent e s)) ∧
  (∀ a s,
     (events (step a s) = events s ∧ seenEventIds (step a s) = seenEventIds s) ∨
     ∃ e, events (step a s) = events (ingestEvent e s) ∧
          seenEventIds (step a s) = seenEventIds (ingestEvent e s)) ∧
  (∀ acts user color, coherent (run acts (initial user color))).
Proof.
  split; [|split; [|split]].
  - intros h user color. apply coherent_ingest_all, coherent_initial.
  - apply coherent_ingestEvent.
  - apply step_log.
  - intros acts user color. apply coherent_run, coherent_initial.
Qed.

(** ** Order determinism *)

Lemma sorted_perm_unique (l1 l2 : list StoredEvent) :
  (∀ a b, a ∈ l1 → b ∈ l1 → seq a = seq b → a = b) →
  l1 ≡ₚ l2 → sort_by_seq l1 = sort_by_seq l2.
Proof.
  intros Hinj Hp.
  apply (StronglySorted_unique_strong le_seq).
  - intros a b Ha Hb Hab Hba. apply Hinj.
    + by rewrite sort_by_seq_perm in Ha.
    + by rewrite sort_by_seq_perm, <- Hp in Hb.
    + unfold le_seq in *. lia.
  - apply sort_by_seq_sorted.
  - apply sort_by_seq_sorted.
  - by rewrite !sort_by_seq_perm.
Qed.

(** C3, amended.  Two ingestion histories that admit the same set of
    events, no two of which share a [seq], are put into the same order. *)
Theorem resolve_order_deterministic
    (user color user' color' : string) (h1 h2 : list StoredEvent) :
  (∀ e, e ∈ log_of_history user color h1 ↔ e ∈ log_of_history user' color' h2) →
  (∀ a b, a ∈ log_of_history user color h1 → b ∈ log_of_history user color h1 →
          seq a = seq b → a = b) →
  resolve_order (log_of_history user color h1) =
  resolve_order (log_of_history user' color' h2).
Proof.
  intros Hsame Hinj. apply sorted_perm_unique; [done|].
  apply NoDup_Permutation; [| |done];
    apply coherent_NoDup, coherent_ingest_all, coherent_initial.
Qed.

(** ** The backward scan *)

Section Scan.
Context {B : Type} (f : StoredEvent → option B).

Lemma scan_back_app_l l k n :
  (n ≤ length l)%nat → scan_back f (l ++ k) n = scan_back f l n.
Proof.
  induction n as [|n IH]; simpl; intros Hn; [done|].
  rewrite lookup_app_l by lia. by rewrite IH by lia.
Qed.

Lemma scan_back_snoc l x :
  scan_back f (l ++ [x]) (length (l ++ [x])) =
  match f x with
  | Some b => Some b
  | None => scan_back f l (length l)
  end.
Proof.
  rewrite length_app. simpl. rewrite Nat.add_1_r. simpl.
  rewrite list_lookup_middle by done.
  by rewrite scan_back_app_l.
Qed.

Lemma scan_back_None l :
  scan_back f l (length l) = None ↔ Forall (λ x, f x = None) l.
Proof.
  induction l as [|x l IH] using rev_ind; [by split; [constructor|]|].
  rewrite scan_back_snoc, Forall_app, Forall_singleton.
  destruct (f x); [|rewrite IH]; naive_solver.
Qed.

Lemma scan_back_Some l b :
  scan_back f l (length l) = Some b ↔
  ∃ l1 e l2, l = l1 ++ e :: l2 ∧ f e = Some b ∧ Forall (λ x, f x = None) l2.
Proof.
  induction l as [|x l IH] using rev_ind.
  { split; [done|]. intros (l1 & e & l2 & Hl & _). by destruct l1. }
  rewrite scan_back_snoc. split.
  - destruct (f x) as [b'|] eqn:Hx.
    + intros [= ->]. exists l, x, []. by split; [|split; [|constructor]].
    + intros (l1 & e & l2 & -> & He & Hl2)%IH.
      exists l1, e, (l2 ++ [x]). rewrite <- app_assoc. simpl.
      split; [done|]. split; [done|].
      apply Forall_app. split; [done|]. by apply Forall_singleton.
  - intros (l1 & e & l2 & Hl & He & Hl2).
    destruct l2 as [|y l2 _] using rev_ind.
    + apply (app_inj_tail l l1 x e) in Hl as [-> ->]. by rewrite He.
    + rewrite app_comm_cons, app_assoc in Hl.
      apply app_inj_tail in Hl as [-> ->].
      apply Forall_app in Hl2 as [Hl2 Hy].
      rewrite Forall_singleton in Hy. rewrite Hy. apply IH. eauto 6.
Qed.

End Scan.

Lemma own_stroke_end_Some user e sid :
  own_stroke_end user e = Some sid ↔ data e = stroke_end sid ∧ userId e = user.
Proof.
  unfold own_stroke_end. destruct (data e); try case_decide; naive_solver.
Qed.

Lemma own_stroke_end_None user e :
  own_stroke_end user e = None ↔ ¬ is_own_stroke_end user e.
Proof.
  unfold own_stroke_end, is_own_stroke_end.
  destruct (data e); try case_decide; naive_solver.
Qed.

Lemma own_undo_Some user e t :
  own_undo user e = Some t ↔ is_own_undo user e ∧ id e = t.
Proof.
  unfold own_undo, is_own_undo.
  destruct (data e); try case_decide; naive_solver.
Qed.

Lemma own_undo_None user e :
  own_undo user e = None ↔ ¬ is_own_undo user e.
Proof.
  unfold own_undo, is_own_undo.
  destruct (data e); try case_decide; naive_solver.
Qed.

Lemma undo_target_Some s sid :
  undo_target s = Some sid ↔
  ∃ l1 e l2, events s = l1 ++ e :: l2 ∧
    data e = stroke_end sid ∧ userId e = userIdRef s ∧
    Forall (λ x, ¬ is_own_stroke_end (userIdRef s) x) l2.
Proof.
  unfold undo_target. rewrite scan_back_Some.
  do 3 (apply exist_proper; intros ?).
  rewrite own_stroke_end_Some.
  rewrite (Forall_iff _ _ _ (own_stroke_end_None (userIdRef s))). tauto.
Qed.

Lemma redo_target_Some s t :
  redo_target s = Some t ↔
  ∃ l1 u l2, events s = l1 ++ u :: l2 ∧
    is_own_undo (userIdRef s) u ∧ id u = t ∧
    Forall (λ x, ¬ is_own_undo (userIdRef s) x) l2.
Proof.
  unfold redo_target. rewrite scan_back_Some.
  do 3 (apply exist_proper; intros ?).
  rewrite own_undo_Some.
  rewrite (Forall_iff _ _ _ (own_undo_None (userIdRef s))). tauto.
Qed.

Lemma undo_target_None s :
  undo_target s = None ↔ Forall (λ x, ¬ is_own_stroke_end (userIdRef s) x) (events s).
Proof.
  unfold undo_target. rewrite scan_back_None.
  apply Forall_iff, own_stroke_end_None.
Qed.

Lemma redo_target_None s :
  redo_target s = None ↔ Forall (λ x, ¬ is_own_undo (userIdRef s) x) (events s).
Proof.
  unfold redo_target. rewrite scan_back_None.
  apply Forall_iff, own_undo_None.
Qed.

(** ** What the handlers leave behind *)

Lemma ingestEvent_frame e s :
  userIdRef (ingestEvent e s) = userIdRef s ∧
  seqRef (ingestEvent e s) = seqRef s ∧
  outbox (ingestEvent e s) = outbox s ∧
  (events (ingestEvent e s) = events s ∨
   events (ingestEvent e s) = events s ++ [e]).
Proof. unfold ingestEvent. case_decide; simpl; auto. Qed.

Lemma ingest_all_frame h s :
  userIdRef (ingest_all h s) = userIdRef s ∧
  seqRef (ingest_all h s) = seqRef s ∧
  outbox (ingest_all h s) = outbox s.
Proof.
  revert s. induction h as [|e h IH]; intros s; simpl; [done|].
  destruct (IH (ingestEvent e s)) as (-> & -> & ->).
  by destruct (ingestEvent_frame e s) as (-> & -> & -> & _).
Qed.

Lemma emit_frame uid d s :
  userIdRef (emit uid d s) = userIdRef s ∧
  seqRef (emit uid d s) = seqRef s + 1 ∧
  sent_events (emit uid d s) =
    sent_events s ++ [mkStored d uid (seqRef s) (userIdRef s)] ∧
  (events (emit uid d s) = events s ∨
   events (emit uid d s) =
     events s ++ [mkStored d uid (seqRef s) (userIdRef s)]).
Proof.
  unfold sent_events. unfold_handlers. rewrite omap_app.
  case_decide; simpl; auto.
Qed.

Lemma emit_fresh uid d s :
  uid ∉ seenEventIds s →
  events (emit uid d s) = events s ++ [mkStored d uid (seqRef s) (userIdRef s)].
Proof. intros H. unfold_handlers. by rewrite decide_False. Qed.

Lemma scan_back_grow {B} (f : StoredEvent → option B) l l' x :
  f x = None → l' = l ∨ l' = l ++ [x] →
  scan_back f l' (length l') = scan_back f l (length l).
Proof.
  intros Hx [->| ->]; [done|]. by rewrite scan_back_snoc, Hx.
Qed.

Lemma undo_target_ingest e s :
  ¬ is_own_stroke_end (userIdRef s) e →
  undo_target (ingestEvent e s) = undo_target s.
Proof.
  intros He%own_stroke_end_None. unfold undo_target.
  destruct (ingestEvent_frame e s) as (-> & _ & _ & Hev).
  by apply (scan_back_grow _ _ _ e).
Qed.

Lemma undo_target_ingest_all h s :
  Forall (λ e, ¬ is_own_stroke_end (userIdRef s) e) h →
  undo_target (ingest_all h s) = undo_target s.
Proof.
  revert s. induction h as [|e h IH]; intros s Hh; simpl; [done|].
  apply Forall_cons in Hh as [He Hh].
  rewrite IH; [by apply undo_target_ingest|].
  by destruct (ingestEvent_frame e s) as (-> & _).
Qed.

Lemma undo_target_emit_undo uid sid s :
  undo_target (emit uid (undo sid) s) = undo_target s.
Proof.
  unfold undo_target.
  destruct (emit_frame uid (undo sid) s) as (-> & _ & _ & Hev).
  by apply (scan_back_grow _ _ _ (mkStored (undo sid) uid (seqRef s) (userIdRef s))).
Qed.

Lemma handleUndo_emits uid s sid :
  undo_target s = Some sid →
  sent_events (handleUndo uid s) =
  sent_events s ++ [mkStored (undo sid) uid (seqRef s) (userIdRef s)].
Proof.
  intros H. unfold handleUndo. rewrite H. apply emit_frame.
Qed.

(** C4.  An undo request takes the last [stroke_end] of the requesting
    user in the log and sends an undo of its stroke, whether or not that
    stroke is already undone: after the request the stroke is among the
    undone ones, and a second request, with no [stroke_end] of that user
    arriving in between, sends an undo of the same stroke. *)
Theorem undo_targets_latest_own_stroke_end (s : AppState) (uid : string) :
  (∀ sid, undo_target s = Some sid ↔
     ∃ l1 e l2, events s = l1 ++ e :: l2 ∧
       data e = stroke_end sid ∧ userId e = userIdRef s ∧
       Forall (λ x, ¬ is_own_stroke_end (userIdRef s) x) l2) ∧
  (∀ sid, undo_target s = Some sid →
     sent_events (handleUndo uid s) =
     sent_events s ++ [mkStored (undo sid) uid (seqRef s) (userIdRef s)]) ∧
  (∀ sid, undo_target s = Some sid →
     uid ∉ seenEventIds s →
     uid ∉ redoneUndoIds (resolve_order (events s)) →
     sid ∈ undoneStrokes (resolve_order (events (handleUndo uid s)))) ∧
  (∀ sid uid2 between, undo_target s = Some sid →
     Forall (λ x, ¬ is_own_stroke_end (userIdRef s) x) between →
     undo_target (ingest_all between (handleUndo uid s)) = Some sid ∧
     sent_events (handleUndo uid2 (ingest_all between (handleUndo uid s))) =
     sent_events (handleUndo uid s) ++
       [mkStored (undo sid) uid2 (seqRef s + 1) (userIdRef s)]).
Proof.
  split; [apply undo_target_Some|].
  split; [intros sid; apply handleUndo_emits|].
  split.
  - intros sid Ht Hfresh Hredo. unfold handleUndo. rewrite Ht.
    rewrite emit_fresh by done.
    apply elem_of_undoneStrokes.
    exists (mkStored (undo sid) uid (seqRef s) (userIdRef s)).
    rewrite elem_of_resolve_order, elem_of_app, list_elem_of_singleton.
    split; [by right|]. split; [done|]. simpl.
    rewrite elem_of_redoneUndoIds. intros (r & Hr & Hd).
    rewrite elem_of_resolve_order, elem_of_app, list_elem_of_singleton in Hr.
    destruct Hr as [Hr| ->]; [|done].
    apply Hredo, elem_of_redoneUndoIds. exists r.
    by rewrite elem_of_resolve_order.
  - intros sid uid2 between Ht Hb.
    assert (handleUndo uid s = emit uid (undo sid) s) as Hu
      by (unfold handleUndo; by rewrite Ht).
    destruct (emit_frame uid (undo sid) s) as (Huser & Hseq & _ & _).
    destruct (ingest_all_frame between (handleUndo uid s)) as (Huser' & Hseq' & Hout).
    assert (undo_target (ingest_all between (handleUndo uid s)) = Some sid)
      as Ht2.
    { rewrite undo_target_ingest_all.
      - by rewrite Hu, undo_target_emit_undo.
      - by rewrite Hu, Huser. }
    split; [done|].
    rewrite (handleUndo_emits _ _ _ Ht2).
    rewrite Huser', Hseq'. unfold sent_events at 1. rewrite Hout.
    by rewrite Hu, Huser, Hseq.
Qed.

(** ** Redo *)

Lemma handleRedo_emits uid s t :
  redo_target s = Some t →
  sent_events (handleRedo uid s) =
  sent_events s ++ [mkStored (redo t) uid (seqRef s) (userIdRef s)].
Proof.
  intros H. unfold handleRedo. rewrite H. apply emit_frame.
Qed.

(** C5, amended.  A redo request takes the last undo event of the
    requesting user in the log, redone already or not, and sends a redo of
    that event's id; so it never takes another user's undo, and never an
    undo of the same user that has a newer one after it. *)
Theorem redo_targets_latest_own_undo (s : AppState) (uid : string) :
  (∀ t, redo_target s = Some t ↔
     ∃ l1 u l2, events s = l1 ++ u :: l2 ∧
       is_own_undo (userIdRef s) u ∧ id u = t ∧
       Forall (λ x, ¬ is_own_undo (userIdRef s) x) l2) ∧
  (∀ t, redo_target s = Some t →
     sent_events (handleRedo uid s) =
     sent_events s ++ [mkStored (redo t) uid (seqRef s) (userIdRef s)]).
Proof.
  split; [apply redo_target_Some|intros t; apply handleRedo_emits].
Qed.

(** C7.  With no [stroke_end] of the requesting user in the log an undo
    request changes nothing, and with no undo of the requesting user in
    the log a redo request changes nothing: no event is created or sent,
    and the log, the counter and the outbox are as before. *)
Theorem no_target_is_noop (s : AppState) (uid : string) :
  (Forall (λ e, ¬ is_own_stroke_end (userIdRef s) e) (events s) →
     handleUndo uid s = s) ∧
  (Forall (λ e, ¬ is_own_undo (userIdRef s) e) (events s) →
     handleRedo uid s = s).
Proof.
  split; intros H.
  - apply undo_target_None in H. unfold handleUndo. by rewrite H.
  - apply redo_target_None in H. unfold handleRedo. by rewrite H.
Qed.

(** ** Several undos of one stroke *)

Lemma redone_in_redoneUndoIds log i :
  i ∈ redoneUndoIds (resolve_order log) ↔ redone_in log i.
Proof.
  rewrite elem_of_redoneUndoIds. unfold redone_in.
  by setoid_rewrite elem_of_resolve_order.
Qed.

Lemma undone_iff log sid :
  sid ∈ undoneStrokes (resolve_order log) ↔
  ∃ u, u ∈ log ∧ data u = undo sid ∧ ¬ redone_in log (id u).
Proof.
  rewrite elem_of_undoneStrokes.
  setoid_rewrite elem_of_resolve_order.
  by setoid_rewrite redone_in_redoneUndoIds.
Qed.



(** ** Presence *)

Lemma presence_updates_lookup ds c u :
  presence_updates ds c !! u =
  match last (filter (λ d, Cursor.userId d = u) ds) with
  | Some d => Some d
  | None => c !! u
  end.
Proof.
  induction ds as [|d ds IH] using rev_ind; [done|].
  unfold presence_updates in *. rewrite foldl_snoc, filter_app.
  unfold updateCursor at 1. rewrite filter_cons, filter_nil.
  case_decide as Hd.
  - rewrite last_snoc. subst u. by rewrite lookup_insert_eq.
  - rewrite app_nil_r, lookup_insert_ne by done. apply IH.
Qed.

(** C9.  Two successive updates for one [userId] leave the second as the
    stored presence of that user, as if the first had never been applied;
    an update leaves the slot of every other user as it was; after any run
    of updates the slot of a user holds the last update for that user.
    The socket handler applies the update to every presence frame but the
    user's own, and never touches the slot of another user. *)
Theorem presence_last_write_wins :
  (∀ d1 d2 c, Cursor.userId d1 = Cursor.userId d2 →
     updateCursor d2 (updateCursor d1 c) !! Cursor.userId d2 = Some d2 ∧
     updateCursor d2 (updateCursor d1 c) = updateCursor d2 c) ∧
  (∀ d c u, u ≠ Cursor.userId d → updateCursor d c !! u = c !! u) ∧
  (∀ ds c u,
     presence_updates ds c !! u =
     match last (filter (λ d, Cursor.userId d = u) ds) with
     | Some d => Some d
     | None => c !! u
     end) ∧
  (∀ d s, Cursor.userId d ≠ userIdRef s →
     cursors (onmessage (WCursor d) s) = updateCursor d (cursors s)) ∧
  (∀ d s u, u ≠ Cursor.userId d →
     cursors (onmessage (WCursor d) s) !! u = cursors s !! u).
Proof.
  split; [|split; [|split; [|split]]].
  - intros d1 d2 c Heq. unfold updateCursor. rewrite Heq. split.
    + apply lookup_insert_eq.
    + apply insert_insert_eq.
  - intros d c u Hu. unfold updateCursor. by rewrite lookup_insert_ne.
  - apply presence_updates_lookup.
  - intros d s Hd. simpl. by rewrite decide_False.
  - intros d s u Hu. simpl. case_decide; [done|]. simpl.
    unfold updateCursor. by rewrite lookup_insert_ne.
Qed.

(** ** The sample sessions *)

Ltac by_compute :=
  match goal with
  | |- ?P => apply (bool_decide_unpack P); vm_compute; exact I
  end.

Ltac elem_cases H :=
  repeat (apply elem_of_cons in H as [->|H]); [..|by apply elem_of_nil in H].

Lemma run_draw_S : events (run draw_S alice) = [ev_start; ev_move; ev_end].
Proof. reflexivity. Qed.

Lemma run_undo_undo_redo : events (run undo_undo_redo alice) = log_undone.
Proof. reflexivity. Qed.

Lemma ingest_bob_only : events (ingest_all bob_only alice) = bob_only.
Proof. reflexivity. Qed.

(** After two undos of [S] and a redo of the second, the start of [S] is
    not painted. *)
Lemma redraw_hides_exactly_undone_witness :
  "S" ∈ spec_undoneStrokeIds log_undone ∧ ev_start ∉ visible_events log_undone.
Proof.
  assert ("S" ∈ spec_undoneStrokeIds log_undone) as HS by by_compute.
  split; [done|]. intros Hv.
  apply (proj2 (proj2 (proj2 (redraw_hides_exactly_undone log_undone)))
           ev_start "S") in Hv; [done| |reflexivity].
  unfold log_undone. left.
Defined.

(** Alice's own first event comes back from the network. *)
Lemma ingest_idempotent_witness :
  ingestEvent ev_start (run draw_S alice) = run draw_S alice ∧
  length (filter (λ x, x = ev_start)
            (events (ingestEvent ev_start
                       (ingestEvent ev_start (run draw_S alice))))) = 1%nat.
Proof.
  destruct (ingest_idempotent (run draw_S alice) ev_start) as (H1 & _ & H3).
  split.
  - apply H1. by_compute.
  - apply H3.
    + apply coherent_run, coherent_initial.
    + intros x Hx Hid. rewrite run_draw_S in Hx.
      elem_cases Hx; [done|discriminate Hid|discriminate Hid].
Defined.

(** The claim as worded fails for an event that arrives under an id the
    log holds for another event: ingested twice, it is dropped twice and
    the log has no copy of it. *)
Lemma ingest_twice_forged_id_no_copy :
  id forged ∈ seenEventIds (run draw_S alice) ∧
  events (ingestEvent forged (ingestEvent forged (run draw_S alice))) =
    [ev_start; ev_move; ev_end] ∧
  length (filter (λ x, x = forged)
            (events (ingestEvent forged (ingestEvent forged (run draw_S alice)))))
    = 0%nat.
Proof.
  split; [by_compute|]. split; vm_compute; reflexivity.
Qed.

(** The claim as worded fails where two events share a [seq]: the two
    histories admit the same two events and are ordered differently. *)
Lemma resolve_order_tie_counterexample :
  (∀ e, e ∈ log_of_history "alice" "red" [tie_a; tie_b] ↔
        e ∈ log_of_history "alice" "red" [tie_b; tie_a]) ∧
  resolve_order (log_of_history "alice" "red" [tie_a; tie_b]) = [tie_a; tie_b] ∧
  resolve_order (log_of_history "alice" "red" [tie_b; tie_a]) = [tie_b; tie_a] ∧
  resolve_order (log_of_history "alice" "red" [tie_a; tie_b]) ≠
  resolve_order (log_of_history "alice" "red" [tie_b; tie_a]).
Proof.
  split; [|split; [reflexivity|split; [reflexivity|discriminate]]].
  intros e.
  change (log_of_history "alice" "red" [tie_a; tie_b]) with [tie_a; tie_b].
  change (log_of_history "alice" "red" [tie_b; tie_a]) with [tie_b; tie_a].
  rewrite !elem_of_cons. tauto.
Qed.

Lemma resolve_order_deterministic_witness :
  resolve_order (log_of_history "alice" "red" [ev_move; ev_start]) =
  resolve_order (log_of_history "bob" "blue" [ev_start; ev_move]).
Proof.
  apply resolve_order_deterministic.
  - intros e.
    change (log_of_history "alice" "red" [ev_move; ev_start])
      with [ev_move; ev_start].
    change (log_of_history "bob" "blue" [ev_start; ev_move])
      with [ev_start; ev_move].
    rewrite !elem_of_cons. tauto.
  - change (log_of_history "alice" "red" [ev_move; ev_start])
      with [ev_move; ev_start].
    intros a b Ha Hb Hab.
    elem_cases Ha; elem_cases Hb; done || discriminate Hab.
Defined.

(** Alice undoes [S], an event of bob arrives, alice undoes again. *)
Lemma undo_targets_latest_own_stroke_end_witness :
  "S" ∈ undoneStrokes
          (resolve_order (events (handleUndo "e3" (run draw_S alice)))) ∧
  undo_target (ingest_all [tie_b] (handleUndo "e3" (run draw_S alice))) =
    Some "S" ∧
  sent_events
    (handleUndo "e4" (ingest_all [tie_b] (handleUndo "e3" (run draw_S alice)))) =
  sent_events (handleUndo "e3" (run draw_S alice)) ++ [ev_undo2].
Proof.
  destruct (undo_targets_latest_own_stroke_end (run draw_S alice) "e3")
    as (_ & _ & H3 & H4).
  split.
  - apply H3; [reflexivity|by_compute|by_compute].
  - apply (H4 "S" "e4" [tie_b]); [reflexivity|].
    repeat constructor. intros (sid & Hd & _). discriminate Hd.
Defined.

(** The claim as worded fails after a redo: the next redo request takes
    the undo that is redone already, while an older undo of the same user
    is not. *)
Lemma redo_retargets_redone_undo :
  redo_target (run undo_undo_redo alice) = Some "e4" ∧
  "e4" ∈ redoneUndoIds (resolve_order (events (run undo_undo_redo alice))) ∧
  ev_undo1 ∈ events (run undo_undo_redo alice) ∧
  ("e3" ∉ redoneUndoIds (resolve_order (events (run undo_undo_redo alice)))) ∧
  sent_events (handleRedo "e6" (run undo_undo_redo alice)) =
    sent_events (run undo_undo_redo alice) ++ [ev_redo2'].
Proof.
  split; [vm_compute; reflexivity|]. split; [by_compute|].
  split; [by_compute|]. split; [by_compute|vm_compute; reflexivity].
Qed.

Lemma redo_targets_latest_own_undo_witness :
  sent_events (handleRedo "e5" (run (draw_S ++ [ClickUndo "e3"; ClickUndo "e4"]) alice)) =
  sent_events (run (draw_S ++ [ClickUndo "e3"; ClickUndo "e4"]) alice) ++ [ev_redo2].
Proof.
  apply (proj2 (redo_targets_latest_own_undo
                  (run (draw_S ++ [ClickUndo "e3"; ClickUndo "e4"]) alice) "e5")
           "e4").
  reflexivity.
Defined.


Lemma no_target_is_noop_witness :
  handleUndo "e0" (ingest_all bob_only alice) = ingest_all bob_only alice ∧
  handleRedo "e0" (ingest_all bob_only alice) = ingest_all bob_only alice.
Proof.
  destruct (no_target_is_noop (ingest_all bob_only alice) "e0") as [H1 H2].
  split; [apply H1|apply H2]; rewrite ingest_bob_only;
    repeat constructor; intros (sid & Hd & Hu); discriminate.
Defined.

Lemma presence_last_write_wins_witness :
  updateCursor bob_cursor2 (updateCursor bob_cursor1 ∅) !! "bob" =
  Some bob_cursor2.
Proof.
  destruct presence_last_write_wins as [Hlww _].
  apply (Hlww bob_cursor1 bob_cursor2). reflexivity.
Defined.

Lemma log_seen_coherence_witness :
  coherent (ingestEvent ev_start (ingest_all [ev_start; ev_move] alice)).
Proof.
  destruct log_seen_coherence as (H1 & H2 & _).
  apply H2, H1.
Defined.

End WhiteboardProofs.

(** * Properties of the relay *)

Module RelayProofs.
Import Relay.

Section Broadcast.
Context {RawData : Type} (toString : RawData → string).




End Broadcast.


(** ** The text that is forwarded *)











End RelayProofs.

(** * Further properties of the whiteboard *)

Module WhiteboardMore.
Import Whiteboard Scenario WhiteboardProofs.

(** ** Sorting and painting *)

(** X1.  The order [redraw] paints in is the stable sort of the log by
    [seq]: the same events, in ascending [seq], with the events of one
    [seq] in the order they have in the log. *)
Theorem resolve_order_stable_sort (log : list StoredEvent) :
  resolve_order log ≡ₚ log ∧
  StronglySorted (λ a b, seq a ≤ seq b) (resolve_order log) ∧
  ∀ k, filter (λ e, seq e = k) (resolve_order log) = filter (λ e, seq e = k) log.
Proof.
  split; [apply sort_by_seq_perm|].
  split; [apply sort_by_seq_sorted|].
  intros k. apply sort_by_seq_stable.
Qed.

Lemma insert_event_least a l :
  Forall (le_seq a) l → insert_event a l = a :: l.
Proof.
  destruct l as [|b l]; [done|]. intros [Hab _]%Forall_cons. simpl.
  unfold compare_seq, le_seq in *. rewrite decide_False; [done|lia].
Qed.

(** In a sorted list, inserting and then filtering is filtering and then
    inserting. *)
Lemma insert_event_filter (P : StoredEvent → Prop) `{!∀ e, Decision (P e)} a l :
  StronglySorted le_seq l →
  filter P (insert_event a l) =
  if decide (P a) then insert_event a (filter P l) else filter P l.
Proof.
  induction 1 as [|b l Hl IH Hb]; simpl.
  - rewrite filter_cons, filter_nil. by case_decide.
  - unfold compare_seq. destruct (decide (0 < seq a - seq b)) as [Hc|Hc].
    + rewrite !filter_cons, IH.
      destruct (decide (P b)), (decide (P a)); simpl; try done.
      unfold compare_seq. by rewrite decide_True.
    + rewrite !filter_cons.
      destruct (decide (P a)) as [Ha|Ha]; [|done].
      destruct (decide (P b)) as [Hpb|Hpb]; simpl.
      * unfold compare_seq. by rewrite decide_False.
      * symmetry. apply insert_event_least.
        apply Forall_forall. intros c [_ Hc']%list_elem_of_filter.
        rewrite Forall_forall in Hb. specialize (Hb c Hc').
        unfold le_seq in *. lia.
Qed.

Lemma sort_by_seq_filter (P : StoredEvent → Prop) `{!∀ e, Decision (P e)} l :
  filter P (sort_by_seq l) = sort_by_seq (filter P l).
Proof.
  induction l as [|a l IH]; simpl; [done|].
  rewrite insert_event_filter by apply sort_by_seq_sorted.
  rewrite filter_cons, IH. by case_decide.
Qed.

Lemma draw_not_shown u e : skipped u e = false → shown u e = false → draw e = [].
Proof.
  unfold skipped, shown, strokeId, draw.
  destruct (data e); try done; intros H1 H2;
    apply bool_decide_eq_false in H1; apply bool_decide_eq_false in H2;
    by destruct H2.
Qed.

Lemma shown_not_skipped u e : shown u e = true → skipped u e = false.
Proof.
  unfold skipped, shown. destruct (strokeId e); [|done].
  rewrite bool_decide_eq_true, bool_decide_eq_false. done.
Qed.

Lemma paint_shown u l :
  paint u l = filter (λ e, shown u e = true) l ≫= draw.
Proof.
  induction l as [|e l IH]; simpl; [done|].
  rewrite filter_cons. destruct (shown u e) eqn:Hsh.
  - rewrite (shown_not_skipped _ _ Hsh), decide_True by done.
    by rewrite bind_cons, IH.
  - rewrite decide_False by done. destruct (skipped u e) eqn:Hsk; [done|].
    by rewrite (draw_not_shown _ _ Hsk Hsh).
Qed.

Lemma redraw_shown log :
  redraw log =
  clearRect ::
    (resolve_order
       (filter (λ e, shown (undoneStrokes (resolve_order log)) e = true) log)
     ≫= draw).
Proof.
  unfold redraw. simpl. f_equal. rewrite paint_shown.
  unfold resolve_order. by rewrite sort_by_seq_filter.
Qed.

(** X2.  What [redraw] puts on the canvas is determined by the
    stroke-bearing events of strokes that are not undone: it is the
    drawing of those events alone, sorted by [seq].  Undo and redo events
    act on the picture only through the set of undone strokes. *)
Theorem redraw_paints_shown_strokes (log : list StoredEvent) :
  redraw log =
  clearRect ::
    (resolve_order
       (filter (λ e, shown (spec_undoneStrokeIds log) e = true) log)
     ≫= draw).
Proof. rewrite redraw_shown. by rewrite undoneStrokes_spec. Qed.

(** Two logs with the same undone strokes and the same stroke-bearing
    events, in the same order, give the same picture. *)
Lemma redraw_ext l l' :
  undoneStrokes (resolve_order l') = undoneStrokes (resolve_order l) →
  filter (λ e, is_Some (strokeId e)) l' = filter (λ e, is_Some (strokeId e)) l →
  redraw l' = redraw l.
Proof.
  intros Hu Hs. rewrite !redraw_shown, Hu. do 3 f_equal.
  set (u := undoneStrokes (resolve_order l)).
  assert (∀ k : list StoredEvent, filter (λ e, shown u e = true) k =
               filter (λ e, shown u e = true)
                 (filter (λ e, is_Some (strokeId e)) k)) as Hk.
  { intros k. rewrite list_filter_filter. apply filter_ext_elem.
    intros e _. split; [|tauto]. intros He. split; [done|].
    unfold shown in He. by destruct (strokeId e). }
  by rewrite (Hk l'), (Hk l), Hs.
Qed.

Lemma undoneStrokes_perm l1 l2 :
  l1 ≡ₚ l2 →
  undoneStrokes (resolve_order l1) = undoneStrokes (resolve_order l2).
Proof.
  intros Hp. apply set_eq. intros x. rewrite !undone_iff.
  unfold redone_in. by setoid_rewrite Hp.
Qed.

(** X3.  Which strokes are hidden does not depend on the order of the
    log, ties in [seq] included: two logs holding the same events have the
    same undone strokes, and the same events are visible. *)
Theorem visibility_is_order_independent (l1 l2 : list StoredEvent) :
  l1 ≡ₚ l2 →
  undoneStrokes (resolve_order l1) = undoneStrokes (resolve_order l2) ∧
  visible_events l1 ≡ₚ visible_events l2.
Proof.
  intros Hp. split; [by apply undoneStrokes_perm|].
  unfold visible_events. simpl. rewrite (undoneStrokes_perm _ _ Hp).
  apply filter_Permutation. unfold resolve_order.
  by rewrite !sort_by_seq_perm.
Qed.

(** ** Delivery at least once, in any order *)

Lemma seen_ingestEvent e s :
  seenEventIds (ingestEvent e s) = {[id e]} ∪ seenEventIds s.
Proof.
  unfold ingestEvent. case_decide as Hin; simpl; [|done].
  apply set_eq. intros x. rewrite elem_of_union, elem_of_singleton.
  split; [tauto|]. by intros [->|?].
Qed.

Lemma seen_ingest_all h s :
  seenEventIds (ingest_all h s) = seenEventIds s ∪ list_to_set (id <$> h).
Proof.
  revert s. induction h as [|e h IH]; intros s; simpl.
  - by rewrite (right_id_L ∅ (∪)).
  - rewrite IH, seen_ingestEvent.
    rewrite (comm_L (∪) {[id e]}), <- (assoc_L (∪)). done.
Qed.

Lemma ingest_all_seen h s :
  Forall (λ e, id e ∈ seenEventIds s) h → ingest_all h s = s.
Proof.
  induction 1 as [|e h He Hh IH]; simpl; [done|].
  by rewrite ingestEvent_seen.
Qed.

(** X4.  Frames that repeat ids the component has seen, in the state it
    started from or in the history delivered since, change nothing:
    whatever their number, order and content.  In particular a history
    delivered twice is a history delivered once. *)
Theorem redelivery_changes_nothing (h h' : list StoredEvent) (s : AppState) :
  (∀ e, e ∈ h' → id e ∈ seenEventIds s ∨ id e ∈ id <$> h) →
  ingest_all h' (ingest_all h s) = ingest_all h s ∧
  ingest_all (h ++ h') s = ingest_all h s.
Proof.
  intros Hids.
  assert (ingest_all h' (ingest_all h s) = ingest_all h s) as Hre.
  { apply ingest_all_seen, Forall_forall. intros e He.
    rewrite seen_ingest_all, elem_of_union, elem_of_list_to_set. auto. }
  split; [done|]. unfold ingest_all in *. by rewrite foldl_app.
Qed.

Lemma ingest_all_first h s :
  ∃ k, events (ingest_all h s) = events s ++ k ∧ k `sublist_of` h ∧
    ∀ e, e ∈ k ↔
      ∃ h1 h2, h = h1 ++ e :: h2 ∧
        (id e ∉ seenEventIds s) ∧ id e ∉ id <$> h1.
Proof.
  revert s. induction h as [|a h IH]; intros s; simpl.
  { exists []. rewrite app_nil_r. split; [done|]. split; [done|].
    intros e. split; [by intros ?%elem_of_nil|].
    intros (h1 & h2 & Hh & _). destruct h1; discriminate Hh. }
  destruct (IH (ingestEvent a s)) as (k & Hk & Hsub & Hin).
  rewrite seen_ingestEvent in Hin.
  destruct (decide (id a ∈ seenEventIds s)) as [Ha|Ha].
  - exists k. split; [by rewrite Hk, ingestEvent_seen|].
    split; [by apply sublist_cons|].
    intros e. rewrite Hin. split.
    + intros (h1 & h2 & -> & Hs & Hh1).
      exists (a :: h1), h2. split; [done|].
      rewrite not_elem_of_union in Hs. destruct Hs as [Hea Hs].
      split; [done|]. rewrite fmap_cons, not_elem_of_cons. split; [|done].
      intros Heq. apply Hs. by rewrite Heq.
    + intros (h1 & h2 & Hh & Hs & Hh1).
      destruct h1 as [|b h1]; simpl in Hh; simplify_eq; [done|].
      rewrite fmap_cons, not_elem_of_cons in Hh1. destruct Hh1 as [Hne Hh1].
      exists h1, h2. split; [done|]. split; [|done].
      rewrite not_elem_of_union, not_elem_of_singleton. done.
  - destruct (ingestEvent_fresh a s Ha) as [Hev _]. rewrite Hev in Hk.
    exists (a :: k). rewrite Hk, <- app_assoc. split; [done|].
    split; [by apply sublist_skip|].
    intros e. rewrite elem_of_cons, Hin. split.
    + intros [->|(h1 & h2 & -> & Hs & Hh1)].
      * exists [], h. split; [done|]. split; [done|]. simpl.
        apply not_elem_of_nil.
      * exists (a :: h1), h2. split; [done|].
        rewrite not_elem_of_union, not_elem_of_singleton in Hs.
        destruct Hs as [Hea Hs]. split; [done|].
        rewrite fmap_cons, not_elem_of_cons. done.
    + intros (h1 & h2 & Hh & Hs & Hh1).
      destruct h1 as [|b h1]; simpl in Hh; simplify_eq; [by left|].
      rewrite fmap_cons, not_elem_of_cons in Hh1. destruct Hh1 as [Hne Hh1].
      right. exists h1, h2. split; [done|]. split; [|done].
      rewrite not_elem_of_union, not_elem_of_singleton. done.
Qed.

(** X5.  The first delivery of an id wins.  The log a history leaves is
    the history without the events whose id occurred earlier in it, in the
    order of the history: a later event with the id of an earlier one is
    dropped even when it differs from it. *)
Theorem first_delivery_wins (user color : string) (h : list StoredEvent) :
  log_of_history user color h `sublist_of` h ∧
  ∀ e, e ∈ log_of_history user color h ↔
    ∃ h1 h2, h = h1 ++ e :: h2 ∧ id e ∉ id <$> h1.
Proof.
  unfold log_of_history.
  destruct (ingest_all_first h (initial user color)) as (k & Hk & Hsub & Hin).
  simpl in Hk. rewrite Hk. split; [done|].
  intros e. rewrite Hin. simpl.
  do 2 (apply exist_proper; intros ?).
  split; [tauto|]. intros [? ?]. split; [done|]. split; [|done].
  apply not_elem_of_empty.
Qed.

(** ** What a run keeps *)

Lemma step_grows a s :
  events s `prefix_of` events (step a s) ∧
  seenEventIds s ⊆ seenEventIds (step a s).
Proof.
  destruct (step_log a s) as [[-> ->]|(e & -> & ->)]; [done|].
  rewrite seen_ingestEvent. split.
  - destruct (ingestEvent_frame e s) as (_ & _ & _ & [->| ->]); [done|].
    by apply prefix_app_r.
  - apply union_subseteq_r.
Qed.

(** X6.  The log is append-only and the seen set only grows: whatever
    the user does and whatever arrives, the log before is a prefix of the
    log after, and no id is ever forgotten. *)
Theorem log_is_append_only (acts : list Action) (s : AppState) :
  events s `prefix_of` events (run acts s) ∧
  seenEventIds s ⊆ seenEventIds (run acts s).
Proof.
  revert s. induction acts as [|a acts IH]; intros s; simpl; [done|].
  destruct (step_grows a s) as [Hp Hs], (IH (step a s)) as [Hp' Hs'].
  split; [by trans (events (step a s))|by trans (seenEventIds (step a s))].
Qed.

Ltac unfold_step :=
  unfold handleMouseDown, handleMouseMove, stopDrawing, handleUndo, handleRedo,
    sent_events; unfold_handlers;
  repeat (case_match; simpl); rewrite ?omap_app; simpl; rewrite ?app_nil_r.

Lemma onmessage_frame m s :
  outbox (onmessage m s) = outbox s ∧ seqRef (onmessage m s) = seqRef s ∧
  userIdRef (onmessage m s) = userIdRef s ∧
  isDrawing (onmessage m s) = isDrawing s ∧
  currentStrokeId (onmessage m s) = currentStrokeId s.
Proof. destruct m; simpl; unfold_step; done. Qed.

(** X7.  Receiving never answers: whatever frames arrive, the component
    sends nothing, draws no [seq] number and leaves the gesture in
    progress alone. *)
Theorem receiving_is_silent (ms : list WireMessage) (s : AppState) :
  outbox (receive_all ms s) = outbox s ∧
  seqRef (receive_all ms s) = seqRef s ∧
  isDrawing (receive_all ms s) = isDrawing s ∧
  currentStrokeId (receive_all ms s) = currentStrokeId s.
Proof.
  revert s. induction ms as [|m ms IH]; intros s; simpl; [done|].
  destruct (IH (onmessage m s)) as (-> & -> & -> & ->).
  by destruct (onmessage_frame m s) as (-> & -> & _ & -> & ->).
Qed.

Lemma step_sent a s :
  userIdRef (step a s) = userIdRef s ∧
  ((sent_events (step a s) = sent_events s ∧ seqRef (step a s) = seqRef s) ∨
   ∃ d uid,
     sent_events (step a s) =
       sent_events s ++ [mkStored d uid (seqRef s) (userIdRef s)] ∧
     seqRef (step a s) = seqRef s + 1).
Proof.
  destruct a as [[d|e]|strokeUid uid x y|uid x y|uid|uid|uid]; simpl;
    unfold_step; eauto 6.
Qed.

Lemma run_snoc acts a s : run (acts ++ [a]) s = step a (run acts s).
Proof. unfold run. by rewrite foldl_snoc. Qed.


Lemma step_cursors a s :
  cursors (step a s) = cursors s ∨
  ∃ d, a = Receive (WCursor d) ∧ Cursor.userId d ≠ userIdRef s ∧
       cursors (step a s) = updateCursor d (cursors s).
Proof.
  destruct a as [[d|e]|strokeUid uid x y|uid x y|uid|uid|uid]; simpl;
    unfold_step; eauto.
Qed.

(** X9.  The presence map never holds the user's own cursor, and every
    slot holds a presence of the user it is filed under: in any run from
    the mounted state. *)
Theorem cursors_are_of_others (acts : list Action) (user color : string) :
  cursors (run acts (initial user color)) !! user = None ∧
  ∀ u d, cursors (run acts (initial user color)) !! u = Some d →
         Cursor.userId d = u.
Proof.
  assert (userIdRef (run acts (initial user color)) = user ∧
          cursors (run acts (initial user color)) !! user = None ∧
          ∀ u d, cursors (run acts (initial user color)) !! u = Some d →
                 Cursor.userId d = u) as H; [|tauto].
  induction acts as [|a acts IH] using rev_ind; [by repeat split|].
  rewrite run_snoc. destruct IH as (Hu & Hself & Hkey).
  destruct (step_sent a (run acts (initial user color))) as [-> _].
  split; [done|].
  destruct (step_cursors a (run acts (initial user color)))
    as [->|(d & _ & Hd & ->)]; [done|].
  unfold updateCursor. rewrite Hu in Hd. split.
  - by rewrite lookup_insert_ne.
  - intros u d'. rewrite lookup_insert. case_decide; [|by apply Hkey].
    by intros [= <-].
Qed.




(** X11.  [stopDrawing] serves both [mouseup] and [mouseleave]; called
    twice in a row it does what it does once, so a stroke gets a single
    [stroke_end]. *)
Theorem stopDrawing_twice (uid uid' : string) (s : AppState) :
  stopDrawing uid' (stopDrawing uid s) = stopDrawing uid s.
Proof.
  unfold stopDrawing at 2 3.
  destruct (isDrawing s) eqn:Hd.
  - destruct (truthy (currentStrokeId s)) eqn:Ht.
    + unfold stopDrawing. by cbn [isDrawing set_isDrawing].
    + unfold stopDrawing. by rewrite Hd, Ht.
  - unfold stopDrawing. by rewrite Hd.
Qed.

Lemma receive_all_snoc ms m s :
  receive_all (ms ++ [m]) s = onmessage m (receive_all ms s).
Proof. unfold receive_all. by rewrite foldl_snoc. Qed.

Lemma ingest_all_snoc h e s :
  ingest_all (h ++ [e]) s = ingestEvent e (ingest_all h s).
Proof. unfold ingest_all. by rewrite foldl_snoc. Qed.

Lemma ingestEvent_log_ext e s s' :
  events s = events s' → seenEventIds s = seenEventIds s' →
  events (ingestEvent e s) = events (ingestEvent e s') ∧
  seenEventIds (ingestEvent e s) = seenEventIds (ingestEvent e s').
Proof.
  intros He Hs. unfold ingestEvent. rewrite <- Hs.
  case_decide; simpl; by rewrite <- ?He.
Qed.

(** X20.  The log and the presence map do not meet.  After any frames,
    the log and the seen set are those of ingesting the event frames
    alone, in their order, and the presence map is that of applying the
    presence frames of other users alone, in their order. *)
Theorem log_and_presence_are_separate (ms : list WireMessage) (s : AppState) :
  events (receive_all ms s) = events (ingest_all (omap frame_event ms) s) ∧
  seenEventIds (receive_all ms s) =
    seenEventIds (ingest_all (omap frame_event ms) s) ∧
  cursors (receive_all ms s) =
    presence_updates
      (filter (λ d, Cursor.userId d ≠ userIdRef s) (omap frame_cursor ms))
      (cursors s).
Proof.
  induction ms as [|m ms IH] using rev_ind; [done|].
  destruct IH as (Hev & Hseen & Hcur).
  assert (userIdRef (receive_all ms s) = userIdRef s) as Huser.
  { clear. revert s. induction ms as [|m ms IH]; intros s; simpl; [done|].
    rewrite IH. by destruct (onmessage_frame m s) as (_ & _ & -> & _). }
  rewrite receive_all_snoc, !omap_app.
  destruct m as [d|e]; simpl.
  - rewrite !app_nil_r, filter_app, filter_cons, filter_nil, Huser.
    destruct (decide (Cursor.userId d = userIdRef s)) as [Hd|Hd].
    + rewrite decide_False by tauto. by rewrite app_nil_r.
    + rewrite decide_True by done. simpl.
      unfold presence_updates. rewrite foldl_snoc.
      fold (presence_updates
              (filter (λ d, Cursor.userId d ≠ userIdRef s)
                 (omap frame_cursor ms)) (cursors s)).
      by rewrite <- Hcur.
  - rewrite ingest_all_snoc, filter_app, filter_nil, app_nil_r.
    destruct (ingestEvent_log_ext e _ _ Hev Hseen) as [-> ->].
    split; [done|]. split; [done|]. rewrite <- Hcur.
    unfold ingestEvent. by case_decide.
Qed.

Lemma step_presence a s :
  userIdRef (step a s) = userIdRef s ∧
  userColorRef (step a s) = userColorRef s ∧
  ∀ P : CursorPresence → Prop,
    (∀ x y, P (Cursor.mk (userIdRef s) x y (userColorRef s))) →
    Forall P (omap frame_cursor (outbox s)) →
    Forall P (omap frame_cursor (outbox (step a s))).
Proof.
  destruct a as [[d|e]|strokeUid uid x y|uid x y|uid|uid|uid]; simpl;
    unfold_step; (split; [done|]); (split; [done|]); intros P HP Hall;
    rewrite ?omap_app, ?Forall_app; simpl; repeat split;
    done || (by apply Forall_singleton) || constructor.
Qed.

(** X21.  Every presence frame a component sends carries its own user id
    and colour: in any run from the mounted state. *)
Theorem presence_frames_are_own (acts : list Action) (user color : string) :
  Forall (λ c, Cursor.userId c = user ∧ Cursor.color c = color)
    (omap frame_cursor (outbox (run acts (initial user color)))).
Proof.
  assert (userIdRef (run acts (initial user color)) = user ∧
          userColorRef (run acts (initial user color)) = color ∧
          Forall (λ c, Cursor.userId c = user ∧ Cursor.color c = color)
            (omap frame_cursor (outbox (run acts (initial user color)))))
    as H; [|tauto].
  induction acts as [|a acts IH] using rev_ind; [by repeat split|].
  rewrite run_snoc. destruct IH as (Hu & Hc & Hall).
  destruct (step_presence a (run acts (initial user color)))
    as (-> & -> & Hstep).
  split; [done|]. split; [done|]. apply Hstep; [|done].
  intros x y. by rewrite Hu, Hc.
Qed.

(** ** A whole gesture *)





(** ** Undo and redo on the canvas *)

Lemma redone_in_app l k i :
  redone_in (l ++ k) i ↔ redone_in l i ∨ redone_in k i.
Proof.
  unfold redone_in. setoid_rewrite elem_of_app. naive_solver.
Qed.

Lemma redone_in_singleton e i : redone_in [e] i ↔ data e = redo i.
Proof.
  unfold redone_in. setoid_rewrite list_elem_of_singleton. naive_solver.
Qed.

Lemma undone_app l k x :
  x ∈ undoneStrokes (resolve_order (l ++ k)) ↔
  ∃ u, (u ∈ l ∨ u ∈ k) ∧ data u = undo x ∧
       ¬ (redone_in l (id u) ∨ redone_in k (id u)).
Proof.
  rewrite undone_iff. apply exist_proper. intros u.
  by rewrite elem_of_app, redone_in_app.
Qed.

Lemma strokes_app_neutral (l k : list StoredEvent) :
  Forall (λ e, strokeId e = None) k →
  filter (λ e, is_Some (strokeId e)) (l ++ k) =
  filter (λ e, is_Some (strokeId e)) l.
Proof.
  intros Hk. rewrite filter_app.
  replace (filter (λ e, is_Some (strokeId e)) k) with (@nil StoredEvent);
    [by rewrite app_nil_r|].
  induction Hk as [|e k He Hk IH]; [done|].
  rewrite filter_cons, decide_False; [done|].
  rewrite He. by intros [? [=]].
Qed.

Lemma emit_seen uid d s :
  seenEventIds (emit uid d s) = {[uid]} ∪ seenEventIds s.
Proof.
  destruct (emit_log uid d s) as [_ ->]. by rewrite seen_ingestEvent.
Qed.

Lemma coherent_id_seen s e : coherent s → e ∈ events s → id e ∈ seenEventIds s.
Proof.
  intros [_ ->] He. apply elem_of_list_to_set. by apply list_elem_of_fmap_2.
Qed.

(** X13.  Undo followed by redo gives the picture back.  In a coherent
    state in which the user has a stroke to undo, an undo request and a
    redo request with fresh ids append one undo event and one redo event
    of that undo, after which the undone strokes and the canvas are what
    they were before the two requests. *)
Theorem undo_then_redo_restores_picture
    (s : AppState) (uid1 uid2 sid : string) :
  coherent s → undo_target s = Some sid →
  uid1 ∉ seenEventIds s → uid2 ∉ seenEventIds s → uid1 ≠ uid2 →
  events (handleRedo uid2 (handleUndo uid1 s)) =
    events s ++ [mkStored (undo sid) uid1 (seqRef s) (userIdRef s);
                 mkStored (redo uid1) uid2 (seqRef s + 1) (userIdRef s)] ∧
  undoneStrokes (resolve_order (events (handleRedo uid2 (handleUndo uid1 s)))) =
    undoneStrokes (resolve_order (events s)) ∧
  redraw (events (handleRedo uid2 (handleUndo uid1 s))) = redraw (events s).
Proof.
  intros Hcoh Ht H1 H2 Hne.
  set (U := mkStored (undo sid) uid1 (seqRef s) (userIdRef s)).
  set (R := mkStored (redo uid1) uid2 (seqRef s + 1) (userIdRef s)).
  assert (handleUndo uid1 s = emit uid1 (undo sid) s) as Hu
    by (unfold handleUndo; by rewrite Ht).
  destruct (emit_frame uid1 (undo sid) s) as (Huser & Hseq & _ & _).
  pose proof (emit_fresh uid1 (undo sid) s H1) as Hev. fold U in Hev.
  assert (redo_target (handleUndo uid1 s) = Some uid1) as Hrt.
  { unfold redo_target. rewrite Hu, Hev, Huser, scan_back_snoc.
    unfold own_undo. simpl. by rewrite decide_True. }
  assert (events (handleRedo uid2 (handleUndo uid1 s)) = events s ++ [U; R])
    as Hlog.
  { unfold handleRedo. rewrite Hrt, Hu. rewrite emit_fresh.
    - rewrite Hev, Hseq, Huser, <- app_assoc. done.
    - rewrite emit_seen, not_elem_of_union, not_elem_of_singleton. done. }
  assert (undoneStrokes
            (resolve_order (events (handleRedo uid2 (handleUndo uid1 s)))) =
          undoneStrokes (resolve_order (events s))) as Hundone.
  { rewrite Hlog. apply set_eq. intros x. rewrite undone_app, undone_iff.
    split.
    - intros (u & [Hu'|Hu'] & Hd & Hr).
      + exists u. split; [done|]. split; [done|]. tauto.
      + destruct Hr. right. exists R.
        apply elem_of_cons in Hu' as [->|Hu'].
        * split; [right; left|done].
        * apply list_elem_of_singleton in Hu' as ->. discriminate Hd.
    - intros (u & Hu' & Hd & Hr). exists u. split; [by left|].
      split; [done|]. intros [Hr'|(r & Hr' & Hdr)]; [done|].
      apply elem_of_cons in Hr' as [->|Hr']; [discriminate Hdr|].
      apply list_elem_of_singleton in Hr' as ->. simpl in Hdr.
      injection Hdr as Hid. apply H1. rewrite Hid.
      by apply coherent_id_seen. }
  split; [done|]. split; [done|].
  apply redraw_ext; [done|]. rewrite Hlog.
  apply strokes_app_neutral. by repeat constructor.
Qed.

(** X14.  A second undo request for a stroke that is already undone
    leaves the undone strokes and the canvas as they are. *)
Theorem undo_again_same_picture (s : AppState) (uid sid : string) :
  undo_target s = Some sid →
  sid ∈ undoneStrokes (resolve_order (events s)) →
  undoneStrokes (resolve_order (events (handleUndo uid s))) =
    undoneStrokes (resolve_order (events s)) ∧
  redraw (events (handleUndo uid s)) = redraw (events s).
Proof.
  intros Ht Hsid. unfold handleUndo. rewrite Ht.
  destruct (emit_frame uid (undo sid) s) as (_ & _ & _ & [->| ->]); [done|].
  set (U := mkStored (undo sid) uid (seqRef s) (userIdRef s)).
  assert (undoneStrokes (resolve_order (events s ++ [U])) =
          undoneStrokes (resolve_order (events s))) as Hundone.
  { apply set_eq. intros x. rewrite undone_app. split.
    - intros (u & [Hu|Hu] & Hd & Hr).
      + apply undone_iff. exists u. split; [done|]. split; [done|]. tauto.
      + apply list_elem_of_singleton in Hu as ->. simpl in Hd.
        by injection Hd as <-.
    - intros (u & Hu & Hd & Hr)%undone_iff. exists u. split; [by left|].
      split; [done|]. intros [Hr'|Hr'%redone_in_singleton]; [done|].
      discriminate Hr'. }
  split; [done|]. apply redraw_ext; [done|].
  apply strokes_app_neutral. by repeat constructor.
Qed.

(** X15.  A redo request whose target is redone already leaves the
    undone strokes and the canvas as they are. *)
Theorem redo_again_same_picture (s : AppState) (uid t : string) :
  redo_target s = Some t → redone_in (events s) t →
  undoneStrokes (resolve_order (events (handleRedo uid s))) =
    undoneStrokes (resolve_order (events s)) ∧
  redraw (events (handleRedo uid s)) = redraw (events s).
Proof.
  intros Ht Hred. unfold handleRedo. rewrite Ht.
  destruct (emit_frame uid (redo t) s) as (_ & _ & _ & [->| ->]); [done|].
  set (R := mkStored (redo t) uid (seqRef s) (userIdRef s)).
  assert (undoneStrokes (resolve_order (events s ++ [R])) =
          undoneStrokes (resolve_order (events s))) as Hundone.
  { apply set_eq. intros x. rewrite undone_app. split.
    - intros (u & [Hu|Hu] & Hd & Hr).
      + apply undone_iff. exists u. split; [done|]. split; [done|]. tauto.
      + apply list_elem_of_singleton in Hu as ->. discriminate Hd.
    - intros (u & Hu & Hd & Hr)%undone_iff. exists u. split; [by left|].
      split; [done|]. intros [Hr'|Hr'%redone_in_singleton]; [done|].
      simpl in Hr'. injection Hr' as ->. done. }
  split; [done|]. apply redraw_ext; [done|].
  apply strokes_app_neutral. by repeat constructor.
Qed.

(** ** Replicas *)

Lemma shown_is_stroke u e : shown u e = true → is_Some (strokeId e).
Proof. unfold shown. by destruct (strokeId e). Qed.

(** X16.  Two logs holding the same events give the same canvas as soon
    as no two stroke-bearing events share a [seq]; ties among undo and
    redo events, or between them and stroke events, change nothing. *)
Theorem replicas_paint_the_same (l1 l2 : list StoredEvent) :
  l1 ≡ₚ l2 →
  (∀ a b, a ∈ l1 → b ∈ l1 → is_Some (strokeId a) → is_Some (strokeId b) →
          seq a = seq b → a = b) →
  redraw l1 = redraw l2.
Proof.
  intros Hp Hinj. rewrite !redraw_shown. f_equal. f_equal.
  rewrite (undoneStrokes_perm _ _ Hp).
  set (u := undoneStrokes (resolve_order l2)).
  apply sorted_perm_unique.
  - intros a b [Ha Ha']%list_elem_of_filter [Hb Hb']%list_elem_of_filter.
    apply Hinj; eauto using shown_is_stroke.
  - by apply filter_Permutation.
Qed.

(** ** The sample sessions again *)

Lemma visibility_is_order_independent_witness :
  undoneStrokes (resolve_order [tie_a; tie_b]) =
    undoneStrokes (resolve_order [tie_b; tie_a]) ∧
  visible_events [tie_a; tie_b] ≡ₚ visible_events [tie_b; tie_a].
Proof.
  apply (visibility_is_order_independent [tie_a; tie_b] [tie_b; tie_a]).
  apply Permutation_swap.
Defined.

(** Both of alice's events come back, one of them twice. *)
Lemma redelivery_changes_nothing_witness :
  ingest_all [ev_move; ev_start; ev_move]
    (ingest_all [ev_start; ev_move] alice) =
    ingest_all [ev_start; ev_move] alice ∧
  ingest_all ([ev_start; ev_move] ++ [ev_move; ev_start; ev_move]) alice =
    ingest_all [ev_start; ev_move] alice.
Proof.
  apply (redelivery_changes_nothing [ev_start; ev_move]
           [ev_move; ev_start; ev_move] alice).
  intros e He. right. elem_cases He; by_compute.
Defined.

(** Bob's cursor arrives, then alice's own comes back. *)
Lemma cursors_are_of_others_witness :
  cursors (run [Receive (WCursor bob_cursor1);
                Receive (WCursor (Cursor.mk "alice" 3 4 "red"))] alice)
    !! "alice" = None ∧
  Cursor.userId bob_cursor1 = "bob".
Proof.
  destruct (cursors_are_of_others
              [Receive (WCursor bob_cursor1);
               Receive (WCursor (Cursor.mk "alice" 3 4 "red"))] "alice" "red")
    as [Hself Hkey].
  split; [exact Hself|]. apply Hkey. vm_compute. reflexivity.
Defined.


Lemma undo_then_redo_restores_picture_witness :
  redraw (events (handleRedo "e4" (handleUndo "e3" (run draw_S alice)))) =
  redraw (events (run draw_S alice)).
Proof.
  apply (undo_then_redo_restores_picture (run draw_S alice) "e3" "e4" "S").
  - apply coherent_run, coherent_initial.
  - vm_compute. reflexivity.
  - by_compute.
  - by_compute.
  - discriminate.
Defined.

Lemma undo_again_same_picture_witness :
  redraw (events (handleUndo "e4" (run (draw_S ++ [ClickUndo "e3"]) alice))) =
  redraw (events (run (draw_S ++ [ClickUndo "e3"]) alice)).
Proof.
  apply (undo_again_same_picture
           (run (draw_S ++ [ClickUndo "e3"]) alice) "e4" "S").
  - vm_compute. reflexivity.
  - by_compute.
Defined.

Lemma redo_again_same_picture_witness :
  redraw (events (handleRedo "e6" (run undo_undo_redo alice))) =
  redraw (events (run undo_undo_redo alice)).
Proof.
  apply (redo_again_same_picture (run undo_undo_redo alice) "e6" "e4").
  - vm_compute. reflexivity.
  - exists ev_redo2. split; [by_compute|reflexivity].
Defined.

Lemma replicas_paint_the_same_witness :
  redraw [ev_start; ev_move; ev_end] = redraw [ev_move; ev_start; ev_end].
Proof.
  apply replicas_paint_the_same; [apply Permutation_swap|].
  intros a b Ha Hb _ _ Hab.
  elem_cases Ha; elem_cases Hb; done || discriminate Hab.
Defined.

End WhiteboardMore.

(** * Further properties of the relay *)

Module RelayMore.
Import Relay.

(** X17.  Messages handled one after the other reach a client in the
    order they arrived: an open client ends with every payload that came
    in on another connection appended, in order, to what it had been sent;
    a client that is not open ends with what it had. *)
Theorem relay_delivers_in_order {RawData : Type} (toString : RawData → string)
    (msgs : list (nat * RawData)) (clients : list Client) :
  length (relay_all toString msgs clients) = length clients ∧
  ∀ i client, clients !! i = Some client →
    relay_all toString msgs clients !! i =
    Some (mkClient (cid client) (readyState client)
            (delivered client ++
               if decide (readyState client = 1%nat)
               then (λ p, toString p.2) <$>
                      filter (λ p, p.1 ≠ cid client) msgs
               else [])).
Proof.
  induction msgs as [|[ws m] msgs IH] using rev_ind.
  - split; [done|]. intros i [c r d] Hi. simpl. rewrite Hi.
    case_decide; by rewrite app_nil_r.
  - destruct IH as [IHlen IH]. unfold relay_all in *. rewrite foldl_snoc.
    simpl. unfold on_message at 1 3. rewrite length_fmap. split; [done|].
    intros i client Hi. rewrite list_lookup_fmap, (IH i client Hi). simpl.
    f_equal. unfold forward. simpl.
    rewrite filter_app, filter_cons, filter_nil, fmap_app. simpl.
    destruct (decide (readyState client = 1%nat)) as [Hr|Hr].
    + destruct (decide (ws ≠ cid client)) as [Hw|Hw].
      * rewrite decide_True by (split; [congruence|done]).
        unfold client_send. simpl. by rewrite <- app_assoc.
      * rewrite decide_False by (intros [? _]; apply Hw; congruence).
        simpl. by rewrite app_nil_r.
    + rewrite decide_False by tauto. done.
Qed.

(** Connection 1 speaks twice and connection 2 once; connection 2 gets
    the two messages of connection 1. *)
Lemma relay_delivers_in_order_witness :
  relay_all (λ m : string, m) [(1%nat, "a"); (2%nat, "b"); (1%nat, "c")]
    Scenario.three_clients !! 1%nat =
  Some (mkClient 2 1 ["a"; "c"]).
Proof.
  destruct (relay_delivers_in_order (λ m : string, m)
              [(1%nat, "a"); (2%nat, "b"); (1%nat, "c")] Scenario.three_clients)
    as [_ H].
  exact (H 1%nat (mkClient 2 1 []) eq_refl).
Defined.

End RelayMore.

(** * Properties of the duplicate-delivery revision *)

Module ChaosProofs.
Import ChaosRevision.

Lemma settled_initial : settled initial.
Proof. split; constructor. Qed.

Lemma settled_addLocalEvent uid roll input s :
  settled s → settled (addLocalEvent uid roll input s).
Proof.
  intros [Hev Htm]. unfold addLocalEvent, createLocalEvent,
    simulateRemoteChaos, ingestEvent. simpl.
  case_decide as Hin; simpl; split.
  - done.
  - apply Forall_app. split; [done|]. by apply Forall_replicate.
  - apply Forall_app. split; [done|]. by apply Forall_singleton.
  - apply Forall_app. split.
    + eapply Forall_impl; [exact Htm|]. intros e He. simpl in He.
      apply elem_of_union. by right.
    + apply Forall_replicate. simpl. apply elem_of_union. left.
      by apply elem_of_singleton.
Qed.

Lemma timeout_settled i s :
  settled s →
  events (timeout i s) = events s ∧
  seenEventIds (timeout i s) = seenEventIds s ∧
  isDrawing (timeout i s) = isDrawing s ∧
  seqRef (timeout i s) = seqRef s ∧
  ∀ P, Forall P (timers s) → Forall P (timers (timeout i s)).
Proof.
  intros [_ Htm]. unfold timeout.
  destruct (timers s !! i) as [event|] eqn:Hi; [|done].
  unfold ingestEvent. simpl. rewrite decide_True.
  - simpl. repeat split. intros P. apply Forall_delete.
  - rewrite Forall_forall in Htm. apply Htm.
    by eapply list_elem_of_lookup_2.
Qed.

Lemma settled_step a s : settled s → settled (step a s).
Proof.
  intros Hs. destruct a as [uid roll x y|uid roll x y|uid roll|i]; simpl.
  - unfold handleMouseDown.
    by destruct (settled_addLocalEvent uid roll (stroke_start x y) s Hs).
  - unfold handleMouseMove. destruct (isDrawing s); [|done].
    by apply settled_addLocalEvent.
  - unfold stopDrawing. destruct (isDrawing s); [|done].
    by destruct (settled_addLocalEvent uid roll stroke_end s Hs).
  - destruct (timeout_settled i s Hs) as (He & Hse & _ & _ & Hsub).
    destruct Hs as [Hev Htm]. split; [by rewrite He|].
    rewrite Hse. by apply Hsub.
Qed.

Lemma settled_run acts s : settled s → settled (run acts s).
Proof.
  revert s. induction acts as [|a acts IH]; intros s Hs; simpl; [done|].
  by apply IH, settled_step.
Qed.

(** X18.  However many delayed copies are pending and whenever they
    run, the log of the revision holds local events only, and a callback
    that runs leaves the log and the seen set as they are. *)
Theorem remote_copies_never_enter (acts : list Action) :
  Forall (λ e, source e = local) (events (run acts initial)) ∧
  ∀ i, events (timeout i (run acts initial)) = events (run acts initial) ∧
       seenEventIds (timeout i (run acts initial)) =
         seenEventIds (run acts initial).
Proof.
  pose proof (settled_run acts initial settled_initial) as Hs.
  split; [apply Hs|]. intros i.
  by destruct (timeout_settled i _ Hs) as (-> & -> & _).
Qed.

Lemma core_step_user a s s' :
  is_user a = true → core s = core s' → core (step a s) = core (step a s').
Proof.
  intros Ha Hc. unfold core in Hc.
  injection Hc as Hev Hseen Hd Hseq.
  destruct a as [uid roll x y|uid roll x y|uid roll|i]; [..|done]; simpl;
    unfold handleMouseDown, handleMouseMove, stopDrawing, addLocalEvent,
      createLocalEvent, simulateRemoteChaos, ingestEvent, set_isDrawing, core;
    simpl; rewrite <- ?Hev, <- ?Hseen, <- ?Hd, <- ?Hseq;
    repeat (case_match; simpl); rewrite <- ?Hev, <- ?Hseen, <- ?Hd, <- ?Hseq;
    first [done|congruence].
Qed.

Lemma core_run acts s s' :
  settled s → core s = core s' →
  core (run acts s) = core (run (filter (λ a, is_user a = true) acts) s').
Proof.
  revert s s'. induction acts as [|a acts IH]; intros s s' Hs Hc; [done|].
  rewrite filter_cons. simpl. destruct (is_user a) eqn:Ha.
  - rewrite decide_True by done. simpl.
    apply IH; [by apply settled_step|by apply core_step_user].
  - rewrite decide_False by done. apply IH; [by apply settled_step|].
    destruct a; try discriminate Ha. simpl. rewrite <- Hc. unfold core.
    by destruct (timeout_settled i s Hs) as (-> & -> & -> & -> & _).
Qed.

(** X19.  The delayed copies are invisible: a session with its callbacks
    run at any moments ends with the log, the seen set, the drawing flag
    and the counter of the same session without any callback. *)
Theorem chaos_is_invisible (acts : list Action) :
  core (run acts initial) =
  core (run (filter (λ a, is_user a = true) acts) initial).
Proof. apply core_run; [apply settled_initial|done]. Qed.

End ChaosProofs.
